(** * The theme packaging script (function [buildTheme])

    [buildTheme] empties [theme/], copies [theme-src/] into it, copies the
    files of [dist/assets/] into [theme/assets/] (renaming the stylesheet and
    the script to [index.css] and [index.js]) and zips [theme/] into
    [theme.zip].

    The script works on the file system below [rootDir] through [fs-extra]
    and [archiver].  The embedding keeps the script's control flow as it is
    written and gives the library calls their documented behaviour on an
    explicit directory tree:

    - a directory is the list of its entries in the order [readdir] reports
      them, so enumeration order is part of the state;
    - every path is relative to [rootDir] and is a list of components;
    - an operation returns the new tree together with the error it raised,
      if any (a failed recursive copy leaves what it had copied so far);
    - awaited promises are sequenced; the two listeners the script installs
      and the promise of [archive.finalize()] are driven by a list of events
      delivered by the runtime once the script is suspended at its [await]. *)

From Stdlib Require Import ZArith.
From stdpp Require Import base tactics option list strings.

Set Warnings "-register-all,-clear-no-such-hyp".

Open Scope string_scope.
Open Scope list_scope.
Open Scope Z_scope.
Open Scope nat_scope.

(** ** Directory trees *)

Definition path := list string.

(** File contents: raw bytes, or a zip archive described by its members.
    A member is a path inside the archive with the bytes stored for it;
    [None] marks a directory entry. *)
Inductive data :=
  | Bytes (s : string)
  | Zip (members : list (path * option data)).

Definition member := (path * option data)%type.

Inductive node :=
  | File (d : data)
  | Dir (entries : list (string * node)).

Definition dir := list (string * node).

Definition names (es : dir) : list string := es.*1.

Fixpoint assoc (x : string) (es : dir) : option node :=
  match es with
  | [] => None
  | (y, n) :: es' => if decide (x = y) then Some n else assoc x es'
  end.

(** Writing an entry: an existing name keeps its place in the listing, a new
    name is added at the end. *)
Fixpoint upsert (x : string) (v : node) (es : dir) : dir :=
  match es with
  | [] => [(x, v)]
  | (y, n) :: es' =>
      if decide (x = y) then (x, v) :: es' else (y, n) :: upsert x v es'
  end.

Definition set_opt (x : string) (r : option node) (es : dir) : dir :=
  match r with
  | Some v => upsert x v es
  | None => es
  end.

Fixpoint get (p : path) (n : node) : option node :=
  match p with
  | [] => Some n
  | x :: p' =>
      match n with
      | Dir es => assoc x es ≫= get p'
      | File _ => None
      end
  end.

(** Directories hold each name once. *)
Definition all_entries (P : node → Prop) : dir → Prop :=
  fix all (es : dir) : Prop :=
    match es with
    | [] => True
    | (_, c) :: es' => P c ∧ all es'
    end.

Fixpoint wf_node (n : node) : Prop :=
  match n with
  | File _ => True
  | Dir es => NoDup (names es) ∧ all_entries wf_node es
  end.

Definition wf_dir (es : dir) : Prop := wf_node (Dir es).

(** Two paths diverge when they differ at some component before either
    ends: neither names something inside the other. *)
Fixpoint diverge (p q : path) : bool :=
  match p, q with
  | x :: p', y :: q' => if decide (x = y) then diverge p' q' else true
  | _, _ => false
  end.

(** ** Errors *)

Inductive errcode := ENOENT | ENOTDIR | EEXIST | EISDIR | EINVAL | EIO.

(** A system or library error: its code, the call that raised it and the
    path it names. *)
Record error := MkError { err_code : errcode; err_call : string; err_path : path }.

(** ** Updating the tree below a path

    [modify p f] applies [f] to whatever is at [p] (nothing, a file or a
    directory).  Missing parent directories are created, as [mkdirs] does; a
    file met on the way is an [ENOTDIR] error. *)

Definition update := option node → option node * option error.

Fixpoint modify (call : string) (whole p : path) (f : update) (cur : option node)
    : option node * option error :=
  match p with
  | [] => f cur
  | x :: p' =>
      match cur with
      | Some (File _) => (cur, Some (MkError ENOTDIR call whole))
      | Some (Dir es) =>
          let '(r, e) := modify call whole p' f (assoc x es) in
          (Some (Dir (set_opt x r es)), e)
      | None =>
          let '(r, e) := modify call whole p' f None in
          ((λ n, Dir [(x, n)]) <$> r, e)
      end
  end.

Definition modify_root (call : string) (p : path) (f : update) (es : dir)
    : dir * option error :=
  match modify call p p f (Some (Dir es)) with
  | (Some (Dir es'), e) => (es', e)
  | (_, e) => (es, e)
  end.

(** *** [fs-extra] on trees *)

(** [emptyDir]: the directory exists and is empty afterwards. *)
Definition emptyDir_at (p : path) : update := λ cur,
  match cur with
  | Some (File _) => (cur, Some (MkError ENOTDIR "scandir" p))
  | _ => (Some (Dir []), None)
  end.

(** [ensureDir]: the directory exists afterwards, contents kept. *)
Definition ensureDir_at (p : path) : update := λ cur,
  match cur with
  | Some (File _) => (cur, Some (MkError EEXIST "mkdir" p))
  | Some (Dir es) => (cur, None)
  | None => (Some (Dir []), None)
  end.

(** [copy src dest] with the default options ([overwrite: true]): a file
    replaces a file, a directory is merged into a directory entry by entry,
    and a file never replaces a directory nor a directory a file. *)
Definition copy_items
    (copy : path → node → option node → option node * option error)
    (dest : path) : dir → dir → dir * option error :=
  fix items (es ds : dir) : dir * option error :=
    match es with
    | [] => (ds, None)
    | (x, c) :: es' =>
        match copy (dest ++ [x]) c (assoc x ds) with
        | (r, Some e) => (set_opt x r ds, Some e)
        | (r, None) => items es' (set_opt x r ds)
        end
    end.

Fixpoint copy_onto (dest : path) (src : node) (dst : option node)
    : option node * option error :=
  match dst with
  | None => (Some src, None)
  | Some t =>
      match src, t with
      | File d, File _ => (Some (File d), None)
      | File _, Dir _ => (dst, Some (MkError EISDIR "copy" dest))
      | Dir _, File _ => (dst, Some (MkError ENOTDIR "copy" dest))
      | Dir es, Dir ds =>
          let '(ds', e) := copy_items copy_onto dest es ds in
          (Some (Dir ds'), e)
      end
  end.

(** [createWriteStream] opens with flag [w]: the file is created or
    truncated; a directory cannot be opened for writing. *)
Definition truncate_at (p : path) : update := λ cur,
  match cur with
  | Some (Dir _) => (cur, Some (MkError EISDIR "open" p))
  | _ => (Some (File (Bytes "")), None)
  end.

Definition write_at (p : path) (d : data) : update := λ cur,
  match cur with
  | Some (Dir _) => (cur, Some (MkError EISDIR "write" p))
  | _ => (Some (File d), None)
  end.

(** *** [archiver]

    [archive.directory(dir, false)] walks [dir] and appends what it meets
    under its path relative to [dir]: a file with its bytes, a directory as
    a directory entry followed by its own contents. *)
Definition walk_entries (walk : node → list member) : dir → list member :=
  fix entries (es : dir) : list member :=
    match es with
    | [] => []
    | (x, c) :: es' =>
        match c with
        | File d => [([x], Some d)]
        | Dir _ => ([x], None) :: (prod_map (cons x) id <$> walk c)
        end ++ entries es'
    end.

Fixpoint walk (n : node) : list member :=
  match n with
  | File _ => []
  | Dir es => walk_entries walk es
  end.

(** [String.prototype.endsWith] *)
Definition endsWith (s suffix : string) : bool :=
  let n := String.length s in
  let k := String.length suffix in
  (k <=? n) && String.eqb (String.substring (n - k) k s) suffix.

(** ** The process

    What the script can observe or change: the tree below [rootDir], the
    two console channels, the write stream [output] and the [archive]
    object with the listeners attached to them, and whether the process is
    still running. *)

Inductive line :=
  | Log (msg : string)                      (* console.log, standard output *)
  | Err (msg : string) (e : option error).  (* console.error, error channel *)

Inductive emitter := Output | Archive.
Inductive signal := SigClose | SigError.

(** The two arrow functions of the script. *)
Inductive listener :=
  | LogSuccess   (* () => { console.log('Theme package created successfully!') } *)
  | Rethrow.     (* (err) => { throw err } *)

Inductive status :=
  | Running                (* executing the synchronous part of [buildTheme] *)
  | Awaiting               (* suspended at [await archive.finalize()] *)
  | Returned               (* the promise of [buildTheme] is fulfilled *)
  | Exited (code : Z)      (* [process.exit(code)] *)
  | Crashed (e : error).   (* uncaught exception: the runtime prints it, exit code 1 *)

Record world := MkWorld {
  disk : dir;
  console : list line;                            (* oldest line first *)
  listeners : list (emitter * signal * listener); (* in order of registration *)
  sink : option path;                             (* file behind [output] *)
  piped : bool;                                   (* [archive.pipe(output)] was called *)
  queued : list path;                             (* directories appended to [archive] *)
  produced : option (list member);                (* members, once the archive has ended *)
  closed : bool;                                  (* [output] has reported closure *)
  proc : status
}.

Definition init (d : dir) : world :=
  MkWorld d [] [] None false [] None false Running.

Definition set_disk (d : dir) (w : world) : world :=
  MkWorld d (console w) (listeners w) (sink w) (piped w) (queued w)
    (produced w) (closed w) (proc w).
Definition add_line (l : line) (w : world) : world :=
  MkWorld (disk w) (console w ++ [l]) (listeners w) (sink w) (piped w)
    (queued w) (produced w) (closed w) (proc w).
Definition add_listener (l : emitter * signal * listener) (w : world) : world :=
  MkWorld (disk w) (console w) (listeners w ++ [l]) (sink w) (piped w)
    (queued w) (produced w) (closed w) (proc w).
Definition set_sink (p : path) (w : world) : world :=
  MkWorld (disk w) (console w) (listeners w) (Some p) (piped w) (queued w)
    (produced w) (closed w) (proc w).
Definition set_piped (w : world) : world :=
  MkWorld (disk w) (console w) (listeners w) (sink w) true (queued w)
    (produced w) (closed w) (proc w).
Definition add_queued (p : path) (w : world) : world :=
  MkWorld (disk w) (console w) (listeners w) (sink w) (piped w)
    (queued w ++ [p]) (produced w) (closed w) (proc w).
Definition set_produced (ms : list member) (w : world) : world :=
  MkWorld (disk w) (console w) (listeners w) (sink w) (piped w) (queued w)
    (Some ms) (closed w) (proc w).
Definition set_closed (w : world) : world :=
  MkWorld (disk w) (console w) (listeners w) (sink w) (piped w) (queued w)
    (produced w) true (proc w).
Definition set_status (s : status) (w : world) : world :=
  MkWorld (disk w) (console w) (listeners w) (sink w) (piped w) (queued w)
    (produced w) (closed w) s.

Definition lookup_path (p : path) (w : world) : option node := get p (Dir (disk w)).

(** *** Computations: a value, a thrown error or [process.exit] *)

Inductive res (A : Type) :=
  | Val (a : A)
  | Throw (e : error)
  | Exit (code : Z).
Arguments Val {A} a.
Arguments Throw {A} e.
Arguments Exit {A} code.

Definition M (A : Type) : Type := world → res A * world.

Definition ret {A} (a : A) : M A := λ w, (Val a, w).

Definition bind {A B} (m : M A) (k : A → M B) : M B := λ w,
  match m w with
  | (Val a, w') => k a w'
  | (Throw e, w') => (Throw e, w')
  | (Exit c, w') => (Exit c, w')
  end.

Declare Scope js_scope.
Delimit Scope js_scope with js.
Notation "'let*' x := m 'in' k" := (bind m (λ x, k))
  (at level 10, x name, m at level 100, k at level 200) : js_scope.
Notation "m ;;; k" := (bind m (λ _, k))
  (at level 100, k at level 200, right associativity) : js_scope.
Open Scope js_scope.

Definition throw {A} (e : error) : M A := λ w, (Throw e, w).

(** [try { body } catch (err) { handler }]: only a thrown error reaches the
    handler; [process.exit] ends the process where it is called. *)
Definition try_catch {A} (body : M A) (handler : error → M A) : M A := λ w,
  match body w with
  | (Throw e, w') => handler e w'
  | r => r
  end.

(** [for (const x of xs) { await body(x) }] *)
Fixpoint for_of {A} (xs : list A) (body : A → M unit) : M unit :=
  match xs with
  | [] => ret tt
  | x :: xs' => body x ;;; for_of xs' body
  end.

Definition console_log (msg : string) : M unit := λ w, (Val tt, add_line (Log msg) w).
Definition console_error (msg : string) (e : option error) : M unit :=
  λ w, (Val tt, add_line (Err msg e) w).
Definition process_exit {A} (code : Z) : M A := λ w, (Exit code, w).

(** *** [fs-extra] as computations *)

Definition fs_op (call : string) (p : path) (f : update) : M unit := λ w,
  let '(d, e) := modify_root call p f (disk w) in
  match e with
  | Some e => (Throw e, set_disk d w)
  | None => (Val tt, set_disk d w)
  end.

Definition emptyDir (p : path) : M unit := fs_op "mkdir" p (emptyDir_at p).
Definition ensureDir (p : path) : M unit := fs_op "mkdir" p (ensureDir_at p).

Definition existsSync (p : path) : M bool :=
  λ w, (Val (bool_decide (is_Some (lookup_path p w))), w).

(** [copy] refuses a destination that is the source or lies inside it. *)
Definition copy (src dest : path) : M unit := λ w,
  match lookup_path src w with
  | None => (Throw (MkError ENOENT "lstat" src), w)
  | Some n =>
      if bool_decide (src `prefix_of` dest)
      then (Throw (MkError EINVAL "copy" dest), w)
      else fs_op "copy" dest (copy_onto dest n) w
  end.

Definition readdir (p : path) : M (list string) := λ w,
  match lookup_path p w with
  | None => (Throw (MkError ENOENT "scandir" p), w)
  | Some (File _) => (Throw (MkError ENOTDIR "scandir" p), w)
  | Some (Dir es) => (Val (names es), w)
  end.

(** *** Streams and the archive *)

(** [fs.createWriteStream(p)] never throws: the file is opened once the
    script yields, and a failure to open is reported by an [error] event on
    the stream. *)
Definition createWriteStream (p : path) : M unit := λ w,
  (Val tt, set_sink p (set_disk (modify_root "open" p (truncate_at p) (disk w)).1 w)).

(** [archiver(format, { zlib: { level } })]: a new archive, with nothing
    appended and no destination. *)
Definition archiver (format : string) (level : Z) : M unit := λ w,
  (Val tt,
   MkWorld (disk w) (console w) (listeners w) (sink w) false [] None
     (closed w) (proc w)).

Definition on (src : emitter) (sig : signal) (l : listener) : M unit :=
  λ w, (Val tt, add_listener (src, sig, l) w).

Definition archive_pipe : M unit := λ w, (Val tt, set_piped w).

(** [archive.directory(p, false)]: the contents of [p] go to the root of the
    archive. *)
Definition archive_directory (p : path) : M unit := λ w, (Val tt, add_queued p w).

(** [archive.finalize()] returns at once with a promise. *)
Definition archive_finalize : M unit := ret tt.

(** ** [buildTheme] *)

Definition themeDir : path := ["theme"].
Definition themeSrc : path := ["theme-src"].
Definition themeAssets : path := ["theme"; "assets"].
Definition distAssets : path := ["dist"; "assets"].
Definition themeZip : path := ["theme.zip"].

Definition success_message : string := "Theme package created successfully!".
Definition missing_message : string := "theme-src directory not found".
Definition failure_message : string := "Error building theme:".

(** Lines 12-25: clean the theme directory, check that [theme-src] exists,
    copy the theme structure. *)
Definition stage : M unit :=
  emptyDir themeDir ;;;
  let* found := existsSync themeSrc in
  (if negb found
   then console_error missing_message None ;;; process_exit 1
   else ret tt) ;;;
  copy themeSrc themeDir.

(** Lines 33-49: the body of the loop over the built assets. *)
Definition copy_asset (file : string) : M unit :=
  let sourcePath := distAssets ++ [file] in
  let targetPath := themeAssets ++ [file] in
  if endsWith file ".css" then copy sourcePath (themeAssets ++ ["index.css"])
  else if endsWith file ".js" then copy sourcePath (themeAssets ++ ["index.js"])
  else copy sourcePath targetPath.

(** Lines 27-49: create the assets directory, copy the built assets. *)
Definition normalize : M unit :=
  ensureDir themeAssets ;;;
  let* distFiles := readdir distAssets in
  for_of distFiles copy_asset.

(** Lines 51-67, up to the point where [await] suspends the function. *)
Definition archive_setup : M unit :=
  createWriteStream themeZip ;;;
  archiver "zip" 9 ;;;
  on Output SigClose LogSuccess ;;;
  on Archive SigError Rethrow ;;;
  archive_pipe ;;;
  archive_directory themeDir ;;;
  archive_finalize.

Definition buildTheme_try : M unit :=
  stage ;;; normalize ;;; archive_setup.

(** Lines 69-72. *)
Definition buildTheme_catch (err : error) : M unit :=
  console_error failure_message (Some err) ;;;
  process_exit 1.

(** ** The runtime *)

Definition run_listener (l : listener) (arg : option error) : M unit :=
  match l with
  | LogSuccess => console_log success_message
  | Rethrow =>
      match arg with
      | Some err => throw err
      | None => ret tt
      end
  end.

Definition listens (src : emitter) (sig : signal) (l : emitter * signal * listener) : bool :=
  match l.1.1, src with
  | Output, Output | Archive, Archive =>
      match l.1.2, sig with
      | SigClose, SigClose | SigError, SigError => true
      | _, _ => false
      end
  | _, _ => false
  end.

(** [emitter.emit(signal, arg)]: the listeners run in order of registration
    and an exception of one of them leaves [emit]; an [error] nobody listens
    to is thrown. *)
Definition emit (src : emitter) (sig : signal) (arg : option error) : M unit := λ w,
  match filter (λ l, listens src sig l = true) (listeners w) with
  | [] =>
      match sig, arg with
      | SigError, Some err => (Throw err, w)
      | _, _ => (Val tt, w)
      end
  | ls => for_of ls (λ l, run_listener l.2 arg) w
  end.

Definition members_of (w : world) : list member :=
  p ← queued w; default [] (walk <$> lookup_path p w).

(** The archive has ended: every queued entry has been read and handed to
    the pipe. *)
Definition archive_ended (w : world) : world := set_produced (members_of w) w.

(** [output] closes: what was piped into it is on disk. *)
Definition flush (w : world) : world :=
  set_closed
    match sink w, produced w, piped w with
    | Some p, Some ms, true =>
        set_disk (modify_root "write" p (write_at p (Zip ms)) (disk w)).1 w
    | _, _, _ => w
    end.

(** Code entered from the event loop has no caller: an exception it lets
    escape is uncaught and ends the process. *)
Definition top_level {A} (m : M A) (after : world → world) (w : world) : world :=
  match m w with
  | (Val _, w') => after w'
  | (Throw e, w') => set_status (Crashed e) w'
  | (Exit c, w') => set_status (Exited c) w'
  end.

(** Lines 10-73, up to the [await] of line 67. *)
Definition buildTheme : M unit := try_catch buildTheme_try buildTheme_catch.

(** Line 75: the call [buildTheme()] runs the function up to its [await]. *)
Definition start (w : world) : world :=
  top_level buildTheme (set_status Awaiting) w.

(** The promise of [archive.finalize()] settles and [buildTheme] resumes
    inside its [try] block: fulfilled, the block is over and the function
    returns; rejected, the [catch] clause runs. *)
Definition resume (r : option error) (w : world) : world :=
  match r with
  | None => set_status Returned (archive_ended w)
  | Some err => top_level (buildTheme_catch err) (set_status Returned) w
  end.

Inductive event :=
  | Emitted (src : emitter) (sig : signal) (arg : option error)
  | Settled (r : option error).

Definition alive (w : world) : bool :=
  match proc w with
  | Exited _ | Crashed _ => false
  | _ => true
  end.

Definition deliver (w : world) (ev : event) : world :=
  if alive w then
    match ev with
    | Emitted src sig arg =>
        let w1 := match src, sig with Output, SigClose => flush w | _, _ => w end in
        top_level (emit src sig arg) id w1
    | Settled r =>
        match proc w with
        | Awaiting => resume r w
        | _ => w
        end
    end
  else w.

(** One run of the script on the tree [d], with the events the runtime
    delivers after the script has yielded. *)
Definition run (d : dir) (evs : list event) : world :=
  foldl deliver (start (init d)) evs.

(** A run in which nothing fails: the archive ends, then the stream closes. *)
Definition quiet : list event := [Settled None; Emitted Output SigClose None].

Definition exit_code (w : world) : option Z :=
  match proc w with
  | Exited c => Some c
  | Crashed _ => Some 1%Z
  | _ => None
  end.

(** ** Vocabulary of the statements *)

(** Reading below an optional node. *)
Definition oget (p : path) (o : option node) : option node := o ≫= get p.

Definition wf_opt (o : option node) : Prop :=
  match o with
  | Some n => wf_node n
  | None => True
  end.

(** The name under which [copy_asset] stores a built asset. *)
Definition target_name (file : string) : string :=
  if endsWith file ".css" then "index.css"
  else if endsWith file ".js" then "index.js"
  else file.

(** The entries of the staged assets directory and of the build output. *)
Definition staged_assets (w : world) : dir :=
  match lookup_path themeAssets w with
  | Some (Dir A) => A
  | _ => []
  end.

Definition built_assets (w : world) : dir :=
  match lookup_path distAssets w with
  | Some (Dir B) => B
  | _ => []
  end.

Definition is_css (file : string) : Prop := endsWith file ".css" = true.
Definition is_js (file : string) : Prop := endsWith file ".js" = true.
Definition is_other (file : string) : Prop :=
  endsWith file ".css" = false ∧ endsWith file ".js" = false.

Global Instance is_css_dec file : Decision (is_css file) :=
  bool_eq_dec (endsWith file ".css") true.
Global Instance is_js_dec file : Decision (is_js file) :=
  bool_eq_dec (endsWith file ".js") true.
Global Instance is_other_dec file : Decision (is_other file) :=
  and_dec (bool_eq_dec (endsWith file ".css") false)
          (bool_eq_dec (endsWith file ".js") false).

(** The tree [n] has, at the path of the archive member [m], what [m]
    records: a file with these bytes, or a directory. *)
Definition holds (n : node) (m : member) : Prop :=
  m.1 ≠ [] ∧
  match m.2 with
  | Some c => get m.1 n = Some (File c)
  | None => ∃ es, get m.1 n = Some (Dir es)
  end.

(** The paths selected by [P] hold the same in two states of the process. *)
Definition frame (P : path → Prop) (w w' : world) : Prop :=
  ∀ q, P q → lookup_path q w' = lookup_path q w.

(** Paths that are neither [theme] nor inside it. *)
Definition off_theme (q : path) : Prop := diverge themeDir q = true.

(** Paths that are neither [theme.zip] nor inside it. *)
Definition off_zip (q : path) : Prop := diverge themeZip q = true.

(** Paths the script never writes to. *)
Definition untouched (q : path) : Prop := off_theme q ∧ off_zip q.

Definition keeps_wf (w w' : world) : Prop := wf_dir (disk w) → wf_dir (disk w').

(** Paths that are neither [theme/assets] nor inside it, nor above it. *)
Definition off_assets (q : path) : Prop := diverge themeAssets q = true.

(** The state [w] with [v] standing at [theme.zip]. *)
Definition with_zip (v : node) (w : world) : world :=
  set_disk (upsert "theme.zip" v (disk w)) w.

(** A computation that goes the same way, and leaves the same tree, whatever
    stands at [theme.zip], once the staged directory exists. *)
Definition ignores_zip {A} (m : M A) : Prop :=
  ∀ w v r w',
    "theme" ∈ names (disk w) → m w = (r, w') →
    m (with_zip v w) = (r, with_zip v w') ∧ "theme" ∈ names (disk w').

(** The tree of [w] is [d0] but for its entry [theme]. *)
Definition around_theme (d0 : dir) (w : world) : Prop :=
  ∃ X, disk w = upsert "theme" X d0.

Definition keeps_around (w w' : world) : Prop :=
  ∀ d0, around_theme d0 w → around_theme d0 w'.

(** A computation that never ends the process by itself. *)
Definition no_exit {A} (m : M A) : Prop :=
  ∀ w r w', m w = (r, w') → ∀ c, r ≠ Exit c.

(** The listeners and the plumbing [archive_setup] leaves behind. *)
Definition installed : list (emitter * signal * listener) :=
  [(Output, SigClose, LogSuccess); (Archive, SigError, Rethrow)].

Definition armed (w : world) : Prop :=
  listeners w = installed ∧ sink w = Some themeZip ∧ piped w = true ∧
  queued w = [themeDir].

(** The state in which a fresh process reaches its [await]: the tree is
    [d'], the archive is set up, nothing was printed. *)
Definition suspended (d' : dir) : world :=
  MkWorld d' [] installed (Some themeZip) true [themeDir] None false Awaiting.

(** The state in which a fresh process has ended through [process.exit(1)]
    after printing [l] on the error channel. *)
Definition failed (d' : dir) (l : line) : world :=
  MkWorld d' [l] [] None false [] None false (Exited 1).

(** Only the tree differs between two states of the process. *)
Definition same_process (w w' : world) : Prop :=
  w' = set_disk (disk w') w.

(** [R] relates the state before a computation to the state after it,
    whatever the outcome. *)
Definition preserves {A} (R : relation world) (m : M A) : Prop :=
  ∀ w r w', m w = (r, w') → R w w'.

(** ** Sample trees *)

(** The scenario of the specification: a template with a layout and an
    empty assets folder, a build output with a stylesheet, a script and an
    image; the staged directory holds a file from an earlier run. *)
Definition sample_disk : dir :=
  [("theme-src",
    Dir [("layout", Dir [("theme.liquid", File (Bytes "<html>"))]);
         ("assets", Dir [])]);
   ("dist",
    Dir [("assets",
          Dir [("bundle.a1b2.css", File (Bytes "body{}"));
               ("bundle.a1b2.js", File (Bytes "main()"));
               ("logo.png", File (Bytes "PNG"))])]);
   ("theme", Dir [("stale.txt", File (Bytes "old"))])].

(** The same without the template tree. *)
Definition no_template_disk : dir :=
  [("dist", Dir [("assets", Dir [("bundle.a1b2.css", File (Bytes "body{}"))])]);
   ("theme", Dir [("stale.txt", File (Bytes "old"))])].

(** The same without the build output, with an archive from an earlier run. *)
Definition no_build_disk : dir :=
  [("theme-src", Dir [("layout", Dir [("theme.liquid", File (Bytes "<html>"))])]);
   ("theme.zip", File (Zip [(["layout"], None)]))].

(** A template that brings its own assets. *)
Definition template_assets_disk : dir :=
  [("theme-src",
    Dir [("assets", Dir [("base.css.liquid", File (Bytes "t1"));
                          ("logo.png", File (Bytes "t2"))])]);
   ("dist",
    Dir [("assets",
          Dir [("bundle.a1b2.css", File (Bytes "body{}"));
               ("bundle.a1b2.js", File (Bytes "main()"));
               ("logo.png", File (Bytes "PNG"))])])].

(** * Directory entries *)

Lemma assoc_upsert x y v es :
  assoc y (upsert x v es) = if decide (y = x) then Some v else assoc y es.
Proof.
  induction es as [|[z n] es IH]; simpl.
  - repeat case_decide; congruence.
  - repeat (case_decide; simpl; simplify_eq); try congruence.
Qed.

Lemma assoc_upsert_eq x v es : assoc x (upsert x v es) = Some v.
Proof. rewrite assoc_upsert. by case_decide. Qed.

Lemma assoc_upsert_ne x y v es : y ≠ x → assoc y (upsert x v es) = assoc y es.
Proof. intros. rewrite assoc_upsert. by case_decide. Qed.

Lemma assoc_set_opt_ne x y r es : y ≠ x → assoc y (set_opt x r es) = assoc y es.
Proof. destruct r; simpl; auto using assoc_upsert_ne. Qed.

Lemma upsert_upsert x v v' es : upsert x v (upsert x v' es) = upsert x v es.
Proof.
  induction es as [|[z n] es IH]; simpl.
  - by case_decide.
  - case_decide; simpl; case_decide; congruence.
Qed.

Lemma assoc_None x es : assoc x es = None ↔ x ∉ names es.
Proof.
  induction es as [|[z n] es IH]; simpl.
  - split; [intros _; apply not_elem_of_nil | done].
  - rewrite not_elem_of_cons. case_decide; naive_solver.
Qed.

Lemma assoc_Some_names x n es : assoc x es = Some n → x ∈ names es.
Proof.
  intros H. destruct (decide (x ∈ names es)) as [|Hn]; [done|].
  apply assoc_None in Hn. congruence.
Qed.

Lemma names_assoc x es : x ∈ names es → is_Some (assoc x es).
Proof.
  intros H. destruct (assoc x es) eqn:E; [eauto|].
  by apply assoc_None in E.
Qed.

Lemma upsert_fresh x v es : x ∉ names es → upsert x v es = es ++ [(x, v)].
Proof.
  induction es as [|[z n] es IH]; simpl; [done|].
  rewrite not_elem_of_cons. intros [? ?]. case_decide; [done|]. by rewrite IH.
Qed.

Lemma names_upsert_known x v es : x ∈ names es → names (upsert x v es) = names es.
Proof.
  induction es as [|[z n] es IH]; simpl.
  - by intros ?%elem_of_nil.
  - intros H. case_decide; simplify_eq; simpl; [done|].
    apply elem_of_cons in H as [?|?]; [done|]. f_equal. by apply IH.
Qed.

Lemma elem_of_names_upsert x y v es :
  y ∈ names (upsert x v es) ↔ y = x ∨ y ∈ names es.
Proof.
  destruct (decide (x ∈ names es)) as [Hx|Hx].
  - rewrite names_upsert_known by done. naive_solver.
  - rewrite upsert_fresh by done. unfold names. rewrite fmap_app, elem_of_app.
    simpl. rewrite list_elem_of_singleton. naive_solver.
Qed.

Lemma NoDup_names_upsert x v es : NoDup (names es) → NoDup (names (upsert x v es)).
Proof.
  intros H. destruct (decide (x ∈ names es)) as [Hx|Hx].
  - by rewrite names_upsert_known.
  - rewrite upsert_fresh by done. unfold names. rewrite fmap_app. simpl.
    apply NoDup_app. split_and!; [done| |apply NoDup_singleton].
    intros y Hy ->%list_elem_of_singleton. done.
Qed.

Lemma all_entries_upsert P x v es :
  P v → all_entries P es → all_entries P (upsert x v es).
Proof.
  intros Hv. induction es as [|[z n] es IH]; simpl; [done|].
  intros [? ?]. case_decide; simpl; auto.
Qed.

Lemma all_entries_assoc P x n es : all_entries P es → assoc x es = Some n → P n.
Proof.
  induction es as [|[z m] es IH]; simpl; [done|].
  intros [? ?]. case_decide; naive_solver.
Qed.

Lemma all_entries_impl (P Q : node → Prop) es :
  all_entries (λ c, P c → Q c) es → all_entries P es → all_entries Q es.
Proof. induction es as [|[z m] es IH]; simpl; naive_solver. Qed.

(** Induction on trees, with the hypothesis for every entry of a directory. *)
Lemma node_rect' (P : node → Prop) :
  (∀ d, P (File d)) →
  (∀ es, all_entries P es → P (Dir es)) →
  ∀ n, P n.
Proof.
  intros Hf Hd. fix IH 1. intros [d|es]; [apply Hf|].
  apply Hd. induction es as [|[x c] es IHes]; simpl; [done|].
  split; [apply IH | apply IHes].
Qed.

(** * Paths *)

Lemma get_app p q n : get (p ++ q) n = get p n ≫= get q.
Proof.
  revert n. induction p as [|x p IH]; intros n; simpl; [done|].
  destruct n as [|es]; [done|]. destruct (assoc x es); simpl; auto.
Qed.

Lemma diverge_app_l p q s : diverge p q = true → diverge (p ++ s) q = true.
Proof.
  revert q. induction p as [|x p IH]; intros [|y q]; simpl; try done.
  case_decide; auto.
Qed.

Lemma diverge_not_prefix p q : diverge p q = true → ¬ p `prefix_of` q.
Proof.
  revert q. induction p as [|x p IH]; intros [|y q]; simpl; try done.
  case_decide; subst.
  - intros H Hp. apply (IH q H). by apply prefix_cons_inv_2 in Hp.
  - intros _ Hp. by apply prefix_cons_inv_1 in Hp.
Qed.

(** * Updates *)

(** An update leaves alone whatever lies on a diverging path. *)
Lemma oget_modify_diverge call whole p f cur q :
  diverge p q = true →
  oget q (modify call whole p f cur).1 = oget q cur.
Proof.
  revert q cur. induction p as [|x p IH]; intros [|y q] cur Hd; simpl in *; try done.
  destruct cur as [[d|es]|]; simpl; [done| |].
  - destruct (modify call whole p f (assoc x es)) as [r e] eqn:E; simpl.
    case_decide as Hxy; subst.
    + specialize (IH q (assoc y es) Hd). rewrite E in IH. simpl in IH.
      destruct r as [v|]; simpl in *.
      * rewrite assoc_upsert_eq. simpl. done.
      * done.
    + by rewrite assoc_set_opt_ne.
  - destruct (modify call whole p f None) as [r e] eqn:E; simpl.
    destruct r as [v|]; simpl; [|done].
    destruct (decide (y = x)) as [->|]; simpl; [|done].
    rewrite decide_True in Hd by done.
    specialize (IH q None Hd). rewrite E in IH. done.
Qed.

Lemma modify_Some call whole x p f n :
  is_Some (modify call whole (x :: p) f (Some n)).1.
Proof.
  simpl. destruct n as [d|es]; simpl; [eauto|].
  destruct (modify call whole p f (assoc x es)); simpl; eauto.
Qed.

Lemma modify_root_cons call x p f es :
  modify_root call (x :: p) f es =
    (set_opt x (modify call (x :: p) p f (assoc x es)).1 es,
     (modify call (x :: p) p f (assoc x es)).2).
Proof.
  unfold modify_root. simpl.
  by destruct (modify call (x :: p) p f (assoc x es)) as [r e].
Qed.

Lemma get_modify_root_diverge call p f es q :
  diverge p q = true →
  get q (Dir (modify_root call p f es).1) = get q (Dir es).
Proof.
  intros Hd. pose proof (oget_modify_diverge call p p f (Some (Dir es)) q Hd) as H.
  unfold modify_root. destruct p as [|x p]; [done|].
  simpl in H |- *. destruct (modify call (x :: p) p f (assoc x es)) as [r e]; simpl in *.
  done.
Qed.

(** An update of an entry of a directory that exists: the update is applied
    to the entry, and the directory is otherwise as before. *)
Lemma modify_child call whole p x f cur A :
  oget p cur = Some (Dir A) →
  ∃ n',
    modify call whole (p ++ [x]) f cur = (Some n', (f (assoc x A)).2) ∧
    get p n' = Some (Dir (set_opt x (f (assoc x A)).1 A)).
Proof.
  revert cur. induction p as [|y p IH]; intros cur H; simpl in *.
  - destruct cur as [[d|es]|]; simplify_eq/=.
    destruct (f (assoc x A)) as [r e]. eauto.
  - destruct cur as [[d|es]|]; simplify_eq/=.
    destruct (IH (assoc y es) H) as (n' & -> & Hn').
    eexists. split; [done|]. simpl. rewrite assoc_upsert_eq. done.
Qed.

Lemma modify_root_child call p x f es A :
  get p (Dir es) = Some (Dir A) →
  get p (Dir (modify_root call (p ++ [x]) f es).1) =
    Some (Dir (set_opt x (f (assoc x A)).1 A)) ∧
  (modify_root call (p ++ [x]) f es).2 = (f (assoc x A)).2.
Proof.
  intros H. unfold modify_root.
  destruct (modify_child call (p ++ [x]) p x f (Some (Dir es)) A H) as (n' & -> & Hn').
  destruct p as [|y p].
  - simpl in *. simplify_eq. done.
  - destruct n' as [d|es']; [done|]. done.
Qed.

(** * Copying *)

Lemma copy_onto_None dest src : copy_onto dest src None = (Some src, None).
Proof. by destruct src. Qed.

Lemma copy_onto_file dest c dst :
  (∀ es, dst ≠ Some (Dir es)) →
  copy_onto dest (File c) dst = (Some (File c), None).
Proof. intros H. destruct dst as [[d|es]|]; simpl; [done| |done]. by destruct (H es). Qed.

Lemma copy_onto_file_inv dest c dst r :
  copy_onto dest (File c) dst = (r, None) → r = Some (File c).
Proof. destruct dst as [[d|es]|]; simpl; congruence. Qed.

(** Copying onto a directory leaves a directory. *)
Lemma copy_onto_dir dest src ds :
  ∃ ds', (copy_onto dest src (Some (Dir ds))).1 = Some (Dir ds').
Proof.
  destruct src as [d|es]; simpl; [eauto|].
  destruct (copy_items copy_onto dest es ds); simpl; eauto.
Qed.

(** Copying a directory into one that holds none of its names adds its
    entries as they are, in their order. *)
Lemma copy_items_fresh dest es ds :
  NoDup (names es) →
  (∀ x, x ∈ names es → x ∉ names ds) →
  copy_items copy_onto dest es ds = (ds ++ es, None).
Proof.
  revert ds. induction es as [|[x c] es IH]; intros ds Hnd Hfr; simpl.
  - by rewrite app_nil_r.
  - simpl in Hnd. apply NoDup_cons in Hnd as [Hx Hnd].
    assert (x ∉ names ds) as Hxd by (apply Hfr; simpl; left).
    apply assoc_None in Hxd as Hxa. rewrite Hxa, copy_onto_None. simpl.
    rewrite upsert_fresh by done. rewrite IH; [by rewrite <-app_assoc|done|].
    intros y Hy. unfold names. rewrite fmap_app, elem_of_app. simpl.
    rewrite list_elem_of_singleton. intros [Hyd| ->]; [|done].
    revert Hyd. apply Hfr. simpl. by right.
Qed.

Lemma copy_onto_empty dest es :
  NoDup (names es) →
  copy_onto dest (Dir es) (Some (Dir [])) = (Some (Dir es), None).
Proof.
  intros H. simpl. rewrite copy_items_fresh; [done..|].
  intros x _. apply not_elem_of_nil.
Qed.

(** * Well-formed trees *)

Lemma wf_empty : wf_node (Dir []).
Proof. split; [constructor|done]. Qed.

Lemma wf_dir_upsert x v es : wf_node v → wf_dir es → wf_dir (upsert x v es).
Proof.
  intros Hv [Hnd Hall]. split; [by apply NoDup_names_upsert|].
  by apply all_entries_upsert.
Qed.

Lemma wf_dir_set_opt x r es : wf_opt r → wf_dir es → wf_dir (set_opt x r es).
Proof. destruct r; simpl; auto using wf_dir_upsert. Qed.

Lemma wf_assoc x es : wf_dir es → wf_opt (assoc x es).
Proof.
  intros [_ Hall]. destruct (assoc x es) eqn:E; simpl; [|done].
  eapply (all_entries_assoc wf_node); eauto.
Qed.

Lemma wf_get p n m : wf_node n → get p n = Some m → wf_node m.
Proof.
  revert n. induction p as [|x p IH]; intros n Hn H; simpl in *; [by simplify_eq|].
  destruct n as [d|es]; [done|].
  pose proof (wf_assoc x es Hn) as Hx.
  destruct (assoc x es) as [c|]; simpl in *; eauto. done.
Qed.

Lemma copy_items_wf dest es :
  all_entries (λ c, wf_node c → ∀ dest dst, wf_opt dst → wf_opt (copy_onto dest c dst).1) es →
  all_entries wf_node es →
  ∀ ds, wf_dir ds → wf_dir (copy_items copy_onto dest es ds).1.
Proof.
  induction es as [|[x c] es IH]; simpl; [done|].
  intros [Hc Hes] [Hwc Hwes] ds Hds.
  specialize (Hc Hwc (dest ++ [x]) (assoc x ds) (wf_assoc x ds Hds)).
  destruct (copy_onto (dest ++ [x]) c (assoc x ds)) as [r [e|]]; simpl in *.
  - by apply wf_dir_set_opt.
  - apply IH; [done..|]. by apply wf_dir_set_opt.
Qed.

Lemma copy_onto_wf src :
  wf_node src → ∀ dest dst, wf_opt dst → wf_opt (copy_onto dest src dst).1.
Proof.
  induction src as [d|es IH] using node_rect'; intros Hsrc dest dst Hdst.
  - destruct dst as [[?|?]|]; simpl; done.
  - destruct dst as [[?|ds]|]; simpl; [done| |done].
    destruct Hsrc as [Hnd Hall].
    pose proof (copy_items_wf dest es IH Hall ds Hdst) as H.
    destruct (copy_items copy_onto dest es ds); simpl in *. done.
Qed.

Lemma modify_wf call whole p f cur :
  (∀ o, wf_opt o → wf_opt (f o).1) →
  wf_opt cur → wf_opt (modify call whole p f cur).1.
Proof.
  intros Hf. revert cur. induction p as [|x p IH]; intros cur Hcur; simpl; [auto|].
  destruct cur as [[d|es]|]; simpl; [done| |].
  - specialize (IH (assoc x es) (wf_assoc x es Hcur)).
    destruct (modify call whole p f (assoc x es)) as [r e]; simpl in *.
    by apply wf_dir_set_opt.
  - specialize (IH None I).
    destruct (modify call whole p f None) as [[v|] e]; simpl in *; [|done].
    split; [|done]. simpl. apply NoDup_singleton.
Qed.

Lemma modify_root_wf call p f es :
  (∀ o, wf_opt o → wf_opt (f o).1) →
  wf_dir es → wf_dir (modify_root call p f es).1.
Proof.
  intros Hf Hes. pose proof (modify_wf call p p f (Some (Dir es)) Hf Hes) as H.
  unfold modify_root. destruct (modify call p p f (Some (Dir es))) as [[[d|es']|] e]; done.
Qed.

(** * Computations *)

Lemma set_disk_id w : set_disk (disk w) w = w.
Proof. by destruct w. Qed.

Global Instance frame_preorder P : PreOrder (frame P).
Proof.
  split.
  - by intros w q _.
  - intros w1 w2 w3 H12 H23 q Hq. rewrite (H23 q Hq). by apply H12.
Qed.

Global Instance keeps_wf_preorder : PreOrder keeps_wf.
Proof. split; unfold keeps_wf; [intros w; auto | intros w1 w2 w3; auto]. Qed.

Global Instance same_process_preorder : PreOrder same_process.
Proof.
  split; unfold same_process.
  - intros w. by rewrite set_disk_id.
  - intros w1 w2 w3 H12 H23. rewrite H23, H12. done.
Qed.

Section preserves.
Context (R : relation world) `{!PreOrder R}.

Lemma preserves_ret {A} (a : A) : preserves R (ret a).
Proof. intros w r w' [= <- <-]. done. Qed.

Lemma preserves_exit {A} c : preserves R (@process_exit A c).
Proof. intros w r w' [= <- <-]. done. Qed.

Lemma preserves_bind {A B} (m : M A) (k : A → M B) :
  preserves R m → (∀ a, preserves R (k a)) → preserves R (bind m k).
Proof.
  intros Hm Hk w r w' H. unfold bind in H.
  destruct (m w) as [[a|e|c] w1] eqn:E; simplify_eq.
  - transitivity w1; [by eapply Hm | by eapply Hk].
  - by eapply Hm.
  - by eapply Hm.
Qed.

Lemma preserves_try_catch {A} (m : M A) (h : error → M A) :
  preserves R m → (∀ e, preserves R (h e)) → preserves R (try_catch m h).
Proof.
  intros Hm Hh w r w' H. unfold try_catch in H.
  destruct (m w) as [[a|e|c] w1] eqn:E; simplify_eq.
  - by eapply Hm.
  - transitivity w1; [by eapply Hm | by eapply Hh].
  - by eapply Hm.
Qed.

Lemma preserves_for_of {A} (xs : list A) (body : A → M unit) :
  (∀ x, preserves R (body x)) → preserves R (for_of xs body).
Proof.
  intros Hb. induction xs as [|x xs IH]; simpl.
  - apply preserves_ret.
  - apply preserves_bind; auto.
Qed.

Lemma preserves_if {A} (b : bool) (m1 m2 : M A) :
  preserves R m1 → preserves R m2 → preserves R (if b then m1 else m2).
Proof. by destruct b. Qed.

(** Steps that read the state and leave it as it is. *)
Lemma preserves_existsSync p : preserves R (existsSync p).
Proof. intros w r w' [= <- <-]. done. Qed.

Lemma preserves_readdir p : preserves R (readdir p).
Proof.
  intros w r w' H. unfold readdir in H.
  destruct (lookup_path p w) as [[?|?]|]; simplify_eq; done.
Qed.

(** A copy is one update of the tree, when it gets that far. *)
Lemma preserves_copy src dest :
  (∀ n, preserves R (fs_op "copy" dest (copy_onto dest n))) →
  preserves R (copy src dest).
Proof.
  intros Hop w r w' H. unfold copy in H.
  destruct (lookup_path src w) as [n|]; [|by simplify_eq].
  case_bool_decide; [by simplify_eq|]. by eapply Hop.
Qed.
End preserves.

Lemma frame_set_disk (P : path → Prop) call p f w :
  (∀ q, P q → diverge p q = true) →
  frame P w (set_disk (modify_root call p f (disk w)).1 w).
Proof. intros HP q Hq. apply get_modify_root_diverge. auto. Qed.

Lemma frame_fs_op (P : path → Prop) call p f :
  (∀ q, P q → diverge p q = true) → preserves (frame P) (fs_op call p f).
Proof.
  intros HP w r w' H. unfold fs_op in H.
  pose proof (frame_set_disk P call p f w HP) as Hf.
  destruct (modify_root call p f (disk w)) as [d [e|]]; by simplify_eq.
Qed.

Lemma same_process_fs_op call p f : preserves same_process (fs_op call p f).
Proof.
  intros w r w' H. unfold fs_op in H.
  destruct (modify_root call p f (disk w)) as [d [e|]]; by simplify_eq.
Qed.

Lemma keeps_wf_fs_op call p f :
  (∀ o, wf_opt o → wf_opt (f o).1) → preserves keeps_wf (fs_op call p f).
Proof.
  intros Hf w r w' H Hw. unfold fs_op in H.
  pose proof (modify_root_wf call p f (disk w) Hf Hw) as Hd.
  destruct (modify_root call p f (disk w)) as [d [e|]]; by simplify_eq.
Qed.

Lemma off_theme_diverge s q : off_theme q → diverge (themeDir ++ s) q = true.
Proof. apply diverge_app_l. Qed.

Lemma upsert_same x v es : assoc x es = Some v → upsert x v es = es.
Proof.
  induction es as [|[z n] es IH]; simpl; [done|].
  case_decide; intros; simplify_eq; [done|]. f_equal. auto.
Qed.

(** * Staging (lines 12-25) *)

Lemma themeSrc_not_prefix : bool_decide (themeSrc `prefix_of` themeDir) = false.
Proof. apply bool_decide_eq_false_2, diverge_not_prefix. done. Qed.

Lemma emptyDir_theme w :
  emptyDir themeDir w =
    match assoc "theme" (disk w) with
    | Some (File _) => (Throw (MkError ENOTDIR "scandir" themeDir), w)
    | _ => (Val tt, set_disk (upsert "theme" (Dir []) (disk w)) w)
    end.
Proof.
  unfold emptyDir, fs_op, themeDir. rewrite modify_root_cons. simpl.
  destruct (assoc "theme" (disk w)) as [[d|es]|] eqn:Et; simpl; try done.
  by rewrite (upsert_same _ _ _ Et), set_disk_id.
Qed.

Lemma existsSync_top x w :
  existsSync [x] w = (Val (bool_decide (is_Some (assoc x (disk w)))), w).
Proof.
  unfold existsSync, lookup_path. simpl. by destruct (assoc x (disk w)).
Qed.

Lemma copy_theme w n t :
  assoc "theme-src" (disk w) = Some n →
  assoc "theme" (disk w) = Some t →
  copy themeSrc themeDir w =
    (match (copy_onto themeDir n (Some t)).2 with
     | Some e => Throw e
     | None => Val tt
     end,
     set_disk (set_opt "theme" (copy_onto themeDir n (Some t)).1 (disk w)) w).
Proof.
  intros Hn Ht. unfold copy. rewrite themeSrc_not_prefix.
  unfold lookup_path. simpl. rewrite Hn. simpl.
  unfold fs_op, themeDir. rewrite modify_root_cons.
  simpl. rewrite Ht. by destruct (copy_onto ["theme"] n (Some t)) as [r [e|]].
Qed.

(** The four ways through the staging block. *)
Lemma stage_unfold w :
  stage w =
    match assoc "theme" (disk w) with
    | Some (File _) => (Throw (MkError ENOTDIR "scandir" themeDir), w)
    | _ =>
        let d1 := upsert "theme" (Dir []) (disk w) in
        match assoc "theme-src" (disk w) with
        | None => (Exit 1%Z, add_line (Err missing_message None) (set_disk d1 w))
        | Some n =>
            (match (copy_onto themeDir n (Some (Dir []))).2 with
             | Some e => Throw e
             | None => Val tt
             end,
             set_disk (set_opt "theme" (copy_onto themeDir n (Some (Dir []))).1 d1) w)
        end
    end.
Proof.
  unfold stage, bind. rewrite emptyDir_theme.
  destruct (assoc "theme" (disk w)) as [[d|es]|] eqn:Et; [done| |].
  all: rewrite (existsSync_top "theme-src"); simpl.
  all: rewrite assoc_upsert_ne by done.
  all: destruct (assoc "theme-src" (disk w)) as [n|] eqn:En;
    [rewrite bool_decide_eq_true_2 by eauto
    |rewrite bool_decide_eq_false_2 by (by intros [? ?]); done].
  all: simpl; erewrite copy_theme;
    [|simpl; rewrite assoc_upsert_ne by done; exact En|simpl; apply assoc_upsert_eq].
  all: done.
Qed.

(** The staging block from a fresh process, as a function of the tree. *)
Lemma stage_init d :
  stage (init d) =
    match assoc "theme" d with
    | Some (File _) => (Throw (MkError ENOTDIR "scandir" themeDir), init d)
    | _ =>
        match assoc "theme-src" d with
        | None =>
            (Exit 1%Z,
             add_line (Err missing_message None) (init (upsert "theme" (Dir []) d)))
        | Some n =>
            (match (copy_onto themeDir n (Some (Dir []))).2 with
             | Some e => Throw e
             | None => Val tt
             end,
             init (set_opt "theme" (copy_onto themeDir n (Some (Dir []))).1
                     (upsert "theme" (Dir []) d)))
        end
    end.
Proof. rewrite stage_unfold. done. Qed.

(** C7. Staging twice in succession gives what staging once gives: same
    outcome, same tree, byte for byte; and what the staged directory held
    before has no influence on what staging leaves. *)
Theorem stage_idempotent d :
  stage (init (disk (stage (init d)).2)) = stage (init d) ∧
  ∀ old old', stage (init (upsert "theme" (Dir old) d)) =
              stage (init (upsert "theme" (Dir old') d)).
Proof.
  split.
  - rewrite (stage_init d).
    destruct (assoc "theme" d) as [[c|es]|] eqn:Et.
    + simpl. rewrite stage_init, Et. done.
    + destruct (assoc "theme-src" d) as [n|] eqn:En.
      * destruct (copy_onto_dir themeDir n []) as [ds' Hds]. simpl.
        rewrite Hds. simpl. rewrite upsert_upsert, stage_init.
        rewrite assoc_upsert_eq, assoc_upsert_ne, En by done.
        rewrite upsert_upsert, Hds. simpl. by rewrite upsert_upsert.
      * simpl. rewrite stage_init.
        rewrite assoc_upsert_eq, assoc_upsert_ne, En by done.
        by rewrite upsert_upsert.
    + destruct (assoc "theme-src" d) as [n|] eqn:En.
      * destruct (copy_onto_dir themeDir n []) as [ds' Hds]. simpl.
        rewrite Hds. simpl. rewrite upsert_upsert, stage_init.
        rewrite assoc_upsert_eq, assoc_upsert_ne, En by done.
        rewrite upsert_upsert, Hds. simpl. by rewrite upsert_upsert.
      * simpl. rewrite stage_init.
        rewrite assoc_upsert_eq, assoc_upsert_ne, En by done.
        by rewrite upsert_upsert.
  - intros old old'. rewrite !stage_init.
    rewrite !assoc_upsert_eq, !assoc_upsert_ne, !upsert_upsert by done. done.
Qed.

(** * Normalizing (lines 27-49) *)

Lemma no_exit_bind {A B} (m : M A) (k : A → M B) :
  no_exit m → (∀ a, no_exit (k a)) → no_exit (bind m k).
Proof.
  intros Hm Hk w r w' H c ->. unfold bind in H.
  destruct (m w) as [[a|e|c'] w1] eqn:E; simplify_eq.
  - by eapply Hk.
  - by eapply Hm.
Qed.

Lemma no_exit_for_of {A} (xs : list A) (body : A → M unit) :
  (∀ x, no_exit (body x)) → no_exit (for_of xs body).
Proof.
  intros Hb. induction xs as [|x xs IH]; simpl.
  - by intros w r w' [= <- <-].
  - apply no_exit_bind; auto.
Qed.

Lemma no_exit_fs_op call p f : no_exit (fs_op call p f).
Proof.
  intros w r w' H c ->. unfold fs_op in H.
  destruct (modify_root call p f (disk w)) as [d [e|]]; simplify_eq.
Qed.

Lemma no_exit_copy src dest : no_exit (copy src dest).
Proof.
  intros w r w' H c ->. unfold copy in H.
  destruct (lookup_path src w) as [n|]; [|by simplify_eq].
  case_bool_decide; [by simplify_eq|]. by eapply no_exit_fs_op.
Qed.

Lemma no_exit_readdir p : no_exit (readdir p).
Proof.
  intros w r w' H c ->. unfold readdir in H.
  destruct (lookup_path p w) as [[?|?]|]; simplify_eq.
Qed.

Lemma copy_asset_target file :
  copy_asset file = copy (distAssets ++ [file]) (themeAssets ++ [target_name file]).
Proof.
  unfold copy_asset, target_name.
  by destruct (endsWith file ".css"), (endsWith file ".js").
Qed.

Lemma no_exit_normalize : no_exit normalize.
Proof.
  apply no_exit_bind; [apply no_exit_fs_op|]. intros _.
  apply no_exit_bind; [apply no_exit_readdir|]. intros files.
  apply no_exit_for_of. intros file. rewrite copy_asset_target. apply no_exit_copy.
Qed.

Lemma normalize_preserves (R : relation world) `{!PreOrder R} :
  preserves R (ensureDir themeAssets) →
  (∀ src x, preserves R (copy src (themeAssets ++ [x]))) →
  preserves R normalize.
Proof.
  intros He Hc. apply preserves_bind; [done..|]. intros _.
  apply preserves_bind; [done|by apply preserves_readdir|]. intros files.
  apply preserves_for_of; [done|]. intros file. rewrite copy_asset_target. apply Hc.
Qed.

Lemma same_process_normalize : preserves same_process normalize.
Proof.
  apply normalize_preserves; [apply _|apply same_process_fs_op|].
  intros. apply preserves_copy; [apply _|]. intros. apply same_process_fs_op.
Qed.

Lemma frame_normalize P : (∀ q, P q → off_theme q) → preserves (frame P) normalize.
Proof.
  intros HP. apply normalize_preserves; [apply _| |].
  - apply frame_fs_op. intros q Hq. by apply (off_theme_diverge ["assets"]), HP.
  - intros. apply preserves_copy; [apply _|]. intros. apply frame_fs_op.
    intros q Hq. by apply (off_theme_diverge ["assets"; x]), HP.
Qed.

Lemma keeps_wf_copy src dest : preserves keeps_wf (copy src dest).
Proof.
  intros w r w' H Hw. unfold copy in H.
  destruct (lookup_path src w) as [n|] eqn:En; [|by simplify_eq].
  case_bool_decide; [by simplify_eq|].
  assert (wf_node n) as Hn by (by eapply (wf_get src (Dir (disk w)))).
  revert Hw. eapply keeps_wf_fs_op; [|done].
  intros o Ho. by apply copy_onto_wf.
Qed.

Lemma keeps_wf_normalize : preserves keeps_wf normalize.
Proof.
  apply normalize_preserves; [apply _| |intros; apply keeps_wf_copy].
  apply keeps_wf_fs_op. intros [[?|?]|] ?; simpl; try done. apply wf_empty.
Qed.

(** * The synchronous part of a run *)

Lemma stage_init_cases d r w1 :
  stage (init d) = (r, w1) →
  (r = Val tt ∧ w1 = init (disk w1)) ∨
  (∃ e, r = Throw e ∧ w1 = init (disk w1)) ∨
  (r = Exit 1%Z ∧ w1 = add_line (Err missing_message None) (init (disk w1))).
Proof.
  rewrite stage_init. intros H.
  destruct (assoc "theme" d) as [[c|es]|]; simplify_eq; eauto.
  all: destruct (assoc "theme-src" d) as [n|]; simplify_eq; eauto.
  all: destruct (copy_onto themeDir n (Some (Dir []))).2; eauto.
Qed.

Lemma normalize_init_cases d r w2 :
  normalize (init d) = (r, w2) →
  (r = Val tt ∨ ∃ e, r = Throw e) ∧ w2 = init (disk w2).
Proof.
  intros H. split.
  - destruct r as [[]|e|c]; eauto. by destruct (no_exit_normalize _ _ _ H c).
  - apply same_process_normalize in H. done.
Qed.

Lemma try_init_cases d r w' :
  buildTheme_try (init d) = (r, w') →
  (r = Val tt ∧ set_status Awaiting w' = suspended (disk w')) ∨
  (∃ e, r = Throw e ∧ w' = init (disk w')) ∨
  (r = Exit 1%Z ∧ w' = add_line (Err missing_message None) (init (disk w'))).
Proof.
  unfold buildTheme_try, bind. intros H.
  destruct (stage (init d)) as [r1 w1] eqn:E1.
  apply stage_init_cases in E1 as [[-> Hw1]|[(e & -> & Hw1)|[-> Hw1]]];
    simplify_eq; eauto.
  rewrite Hw1 in H. destruct (normalize (init (disk w1))) as [r2 w2] eqn:E2.
  apply normalize_init_cases in E2 as [[->|[e ->]] Hw2]; simplify_eq; eauto.
  rewrite Hw2 in H. unfold archive_setup, bind in H. simpl in H.
  unfold archive_finalize, ret in H. simplify_eq. left. done.
Qed.

(** A fresh process either reaches its [await] with the archive set up and
    nothing printed, or has ended with status 1 after one line on the error
    channel: the line of the [catch] clause, or the line of the guard. *)
Lemma start_cases d :
  start (init d) = suspended (disk (start (init d))) ∨
  (∃ e, start (init d) = failed (disk (start (init d))) (Err failure_message (Some e))) ∨
  start (init d) = failed (disk (start (init d))) (Err missing_message None).
Proof.
  unfold start, top_level, buildTheme, try_catch.
  destruct (buildTheme_try (init d)) as [r w'] eqn:E.
  apply try_init_cases in E as [[-> Hw]|[(e & -> & Hw)|[-> Hw]]].
  - by left.
  - right; left. exists e. rewrite Hw. done.
  - right; right. rewrite Hw. done.
Qed.

(** * Events *)

Lemma foldl_deliver_inv (I : world → Prop) :
  (∀ w ev, I w → I (deliver w ev)) →
  ∀ evs w, I w → I (foldl deliver w evs).
Proof. intros Hstep evs. induction evs as [|ev evs IH]; simpl; auto. Qed.

Lemma deliver_dead w ev : alive w = false → deliver w ev = w.
Proof. unfold deliver. by intros ->. Qed.

Lemma foldl_deliver_dead w evs : alive w = false → foldl deliver w evs = w.
Proof.
  intros H. induction evs as [|ev evs IH]; simpl; [done|].
  by rewrite deliver_dead.
Qed.

(** What the listeners of the script do with each signal. *)
Lemma emit_armed src sig arg w :
  armed w →
  emit src sig arg w =
    match src, sig, arg with
    | Output, SigClose, _ => (Val tt, add_line (Log success_message) w)
    | _, SigError, Some err => (Throw err, w)
    | _, _, _ => (Val tt, w)
    end.
Proof.
  intros (Hl & _). unfold emit. rewrite Hl.
  destruct src, sig, arg; done.
Qed.

Lemma armed_flush w : armed w → armed (flush w).
Proof.
  unfold flush, armed. intros (Hl & Hs & Hp & Hq). rewrite Hs, Hp.
  destruct (produced w); done.
Qed.

Lemma deliver_armed w ev :
  armed w → alive w = true →
  deliver w ev =
    match ev with
    | Emitted Output SigClose _ => add_line (Log success_message) (flush w)
    | Emitted _ SigError (Some err) => set_status (Crashed err) w
    | Emitted _ _ _ => w
    | Settled r =>
        match proc w with
        | Awaiting => resume r w
        | _ => w
        end
    end.
Proof.
  intros Hw Ha. unfold deliver. rewrite Ha. destruct ev as [src sig arg|r]; [|done].
  unfold top_level. rewrite emit_armed.
  - destruct src, sig, arg; done.
  - destruct src, sig; auto using armed_flush.
Qed.

Lemma armed_deliver w ev : armed w → armed (deliver w ev).
Proof.
  intros Hw. destruct (alive w) eqn:Ha; [|by rewrite deliver_dead].
  rewrite deliver_armed by done. pose proof (armed_flush w Hw) as Hf.
  destruct Hw as (? & ? & ? & ?), Hf as (? & ? & ? & ?).
  destruct ev as [[] [] [e|]|[e|]]; try done.
  all: destruct (proc w); done.
Qed.

(** A run is over when the synchronous part has ended the process; else it
    goes on from the state in which the script is suspended. *)
Lemma run_cases d evs :
  (∃ l, start (init d) = failed (disk (start (init d))) l ∧
        (l = Err missing_message None ∨ ∃ e, l = Err failure_message (Some e)) ∧
        run d evs = start (init d)) ∨
  (start (init d) = suspended (disk (start (init d))) ∧
   run d evs = foldl deliver (suspended (disk (start (init d)))) evs).
Proof.
  unfold run. destruct (start_cases d) as [H|[[e H]|H]].
  - right. by rewrite <-H.
  - left. eexists. split; [done|]. split; [eauto|].
    apply foldl_deliver_dead. by rewrite H.
  - left. eexists. split; [done|]. split; [eauto|].
    apply foldl_deliver_dead. by rewrite H.
Qed.

(** * What a run leaves alone *)

Lemma frame_same_disk P w w' : disk w' = disk w → frame P w w'.
Proof. intros H q _. unfold lookup_path. by rewrite H. Qed.

Lemma frame_pure P {A} (m : M A) :
  (∀ w r w', m w = (r, w') → disk w' = disk w) → preserves (frame P) m.
Proof. intros H w r w' Hm. eapply frame_same_disk, H, Hm. Qed.

Lemma frame_console_error P msg e : preserves (frame P) (console_error msg e).
Proof. apply frame_pure. by intros w r w' [= <- <-]. Qed.

Lemma frame_catch P e : preserves (frame P) (buildTheme_catch e).
Proof.
  apply preserves_bind; [apply _|apply frame_console_error|].
  intros _. apply preserves_exit, _.
Qed.

Lemma frame_stage P : (∀ q, P q → off_theme q) → preserves (frame P) stage.
Proof.
  intros HP. unfold stage.
  apply preserves_bind; [apply _| |intros _].
  { apply frame_fs_op. intros q Hq. by apply HP. }
  apply preserves_bind; [apply _|apply preserves_existsSync, _|intros found].
  apply preserves_bind; [apply _| |intros _].
  { apply preserves_if.
    - apply preserves_bind; [apply _|apply frame_console_error|].
      intros _. apply preserves_exit, _.
    - apply preserves_ret, _. }
  apply preserves_copy; [apply _|]. intros n. apply frame_fs_op.
  intros q Hq. by apply HP.
Qed.

Lemma frame_archive_setup P : (∀ q, P q → off_zip q) → preserves (frame P) archive_setup.
Proof.
  intros HP w r w' H. unfold archive_setup, bind in H. simpl in H.
  unfold archive_finalize, ret in H. simplify_eq.
  intros q Hq. unfold lookup_path. simpl. apply get_modify_root_diverge. by apply HP.
Qed.

Lemma frame_try P : (∀ q, P q → untouched q) → preserves (frame P) buildTheme_try.
Proof.
  intros HP. unfold buildTheme_try.
  apply preserves_bind; [apply _| |intros _].
  { apply frame_stage. intros q Hq. by apply HP. }
  apply preserves_bind; [apply _| |intros _].
  { apply frame_normalize. intros q Hq. by apply HP. }
  apply frame_archive_setup. intros q Hq. by apply HP.
Qed.

Lemma frame_top_level P {A} (m : M A) (after : world → world) w :
  preserves (frame P) m → (∀ w, disk (after w) = disk w) →
  frame P w (top_level m after w).
Proof.
  intros Hm Ha. unfold top_level. destruct (m w) as [[a|e|c] w'] eqn:E.
  - transitivity w'; [by eapply Hm|by apply frame_same_disk].
  - transitivity w'; [by eapply Hm|by apply frame_same_disk].
  - transitivity w'; [by eapply Hm|by apply frame_same_disk].
Qed.

Lemma frame_start P w : (∀ q, P q → untouched q) → frame P w (start w).
Proof.
  intros HP. apply frame_top_level; [|done].
  apply preserves_try_catch; [apply _|by apply frame_try|apply frame_catch].
Qed.

Lemma frame_flush P w : armed w → (∀ q, P q → off_zip q) → frame P w (flush w).
Proof.
  unfold flush. intros (Hl & Hs & Hp & Hq) HP. rewrite Hs, Hp.
  destruct (produced w) as [ms|]; [|by apply frame_same_disk].
  intros q Hq'. unfold lookup_path. simpl. apply get_modify_root_diverge. by apply HP.
Qed.

Lemma frame_deliver P w ev :
  armed w → (∀ q, P q → off_zip q) → frame P w (deliver w ev).
Proof.
  intros Hw HP. destruct (alive w) eqn:Ha; [|by rewrite deliver_dead].
  rewrite deliver_armed by done.
  destruct ev as [[] [] [e|]|[e|]]; try done.
  1,2: transitivity (flush w); [by apply frame_flush|by apply frame_same_disk].
  all: destruct (proc w); try done; by apply frame_same_disk.
Qed.

Lemma frame_foldl_deliver P evs w :
  armed w → (∀ q, P q → off_zip q) → frame P w (foldl deliver w evs).
Proof.
  intros Hw HP.
  apply (foldl_deliver_inv (λ w', armed w' ∧ frame P w w')); [|done].
  intros w' ev [Hw' Hf]. split; [by apply armed_deliver|].
  transitivity w'; [done|by apply frame_deliver].
Qed.

Lemma frame_run P d evs : (∀ q, P q → untouched q) → frame P (init d) (run d evs).
Proof.
  intros HP. destruct (run_cases d evs) as [(l & _ & _ & ->)|[Hs ->]].
  - by apply frame_start.
  - transitivity (start (init d)); [by apply frame_start|].
    rewrite Hs at 1. apply frame_foldl_deliver; [done|].
    intros q Hq. by apply HP.
Qed.

(** C9. The two inputs are never written to: whatever a run does and however
    it ends, every path at or below [theme-src] and [dist/assets] holds
    after the run what it held before. *)
Theorem inputs_untouched d evs q :
  lookup_path (themeSrc ++ q) (run d evs) = get (themeSrc ++ q) (Dir d) ∧
  lookup_path (distAssets ++ q) (run d evs) = get (distAssets ++ q) (Dir d).
Proof.
  split; apply (frame_run untouched d evs (λ _ H, H)); by split.
Qed.

(** * Completion of the archive (lines 57-67) *)

Lemma success_after_close_step w ev :
  armed w →
  (Log success_message ∈ console w → closed w = true) →
  Log success_message ∈ console (deliver w ev) → closed (deliver w ev) = true.
Proof.
  intros Hw Hc. destruct (alive w) eqn:Ha; [|by rewrite deliver_dead].
  rewrite deliver_armed by done.
  destruct ev as [[] [] [e|]|[e|]]; try done.
  - destruct (proc w); try done. simpl.
    rewrite elem_of_app, list_elem_of_singleton. intros [?|?]; [auto|done].
  - destruct (proc w); done.
Qed.

(** C5, as the script has it. The success message is printed by the
    listener of the stream's [close] event only: whatever the runtime
    delivers, the message is never on the console unless the stream has
    reported closure. The function itself waits for the promise of
    [finalize] alone: once that promise is fulfilled, control has returned,
    and neither the closure of the stream nor the message is waited for. *)
Theorem success_only_after_close d evs :
  (Log success_message ∈ console (run d evs) → closed (run d evs) = true) ∧
  (proc (run d evs) = Awaiting →
   proc (run d (evs ++ [Settled None])) = Returned ∧
   closed (run d (evs ++ [Settled None])) = closed (run d evs) ∧
   console (run d (evs ++ [Settled None])) = console (run d evs)).
Proof.
  split.
  - destruct (run_cases d evs) as [(l & Hl & Hk & ->)|[Hs ->]].
    + rewrite Hl. simpl. rewrite list_elem_of_singleton.
      destruct Hk as [->|[e ->]]; done.
    + apply (foldl_deliver_inv (λ w, armed w ∧
        (Log success_message ∈ console w → closed w = true))).
      * intros w ev [Hw Hc]. split; [by apply armed_deliver|].
        by apply success_after_close_step.
      * split; [done|]. simpl. by intros ?%elem_of_nil.
  - intros Hp. unfold run in *. rewrite foldl_app. simpl.
    set (w := foldl deliver (start (init d)) evs) in *.
    unfold deliver, alive. rewrite Hp. done.
Qed.

Lemma success_only_after_close_witness :
  proc (run sample_disk []) = Awaiting ∧
  proc (run sample_disk ([] ++ [Settled None])) = Returned ∧
  closed (run sample_disk ([] ++ [Settled None])) = closed (run sample_disk []) ∧
  console (run sample_disk ([] ++ [Settled None])) = console (run sample_disk []).
Proof.
  split; [vm_compute; reflexivity|].
  apply (success_only_after_close sample_disk []). vm_compute. reflexivity.
Defined.

(** C5, as stated, fails: once [finalize] has settled, [buildTheme] has
    returned although the stream has not reported closure. *)
Lemma returns_before_close :
  ¬ ∀ d evs,
      (Log success_message ∈ console (run d evs) → closed (run d evs) = true) ∧
      (proc (run d evs) = Returned → closed (run d evs) = true).
Proof.
  intros H. destruct (H sample_disk [Settled None]) as [_ Hr].
  specialize (Hr eq_refl). vm_compute in Hr. discriminate.
Qed.

(** * Runs that fail for a missing input *)

Lemma bind_Val {A B} (m : M A) (k : A → M B) w b w' :
  bind m k w = (Val b, w') → ∃ a w1, m w = (Val a, w1) ∧ k a w1 = (Val b, w').
Proof.
  unfold bind. destruct (m w) as [[a|e|c] w1]; intros; simplify_eq. eauto.
Qed.

Lemma get_top x es : get [x] (Dir es) = assoc x es.
Proof. simpl. by destruct (assoc x es). Qed.

Lemma run_failed d evs d' l : start (init d) = failed d' l → run d evs = failed d' l.
Proof. intros H. unfold run. rewrite H. by apply foldl_deliver_dead. Qed.

(** When the synchronous part does not come to its end, the process is
    over: the guard printed its line and left, or the [catch] clause printed
    the error and left. *)
Lemma start_failed d r w' :
  buildTheme_try (init d) = (r, w') → r ≠ Val tt →
  (r = Exit 1%Z ∧ start (init d) = failed (disk w') (Err missing_message None)) ∨
  (∃ e, r = Throw e ∧ start (init d) = failed (disk w') (Err failure_message (Some e))).
Proof.
  intros H Hr. unfold start, top_level, buildTheme, try_catch. rewrite H.
  apply try_init_cases in H as [[-> Hw]|[(e & -> & Hw)|[-> Hw]]]; [done| |].
  - right. exists e. split; [done|]. rewrite Hw. done.
  - left. split; [done|]. rewrite Hw. done.
Qed.

Lemma get_upsert_off x v es q :
  diverge [x] q = true → get q (Dir (upsert x v es)) = get q (Dir es).
Proof.
  destruct q as [|y q]; [done|]. simpl. case_decide; [done|]. intros _.
  by rewrite assoc_upsert_ne.
Qed.

(** C1, as the script has it. Without [theme-src] the run ends with status
    1 and nothing outside the staged directory is touched; the staged
    directory itself has been emptied before the check, so it is left
    existing and empty, with the guard's line on the error channel. Only
    when a file stands where the staged directory should be does emptying
    fail, and then nothing at all is modified. *)
Theorem missing_template d evs :
  get themeSrc (Dir d) = None →
  exit_code (run d evs) = Some 1%Z ∧
  (∀ q, off_theme q → lookup_path q (run d evs) = get q (Dir d)) ∧
  match assoc "theme" d with
  | Some (File _) =>
      disk (run d evs) = d ∧
      ∃ e, console (run d evs) = [Err failure_message (Some e)]
  | _ =>
      lookup_path themeDir (run d evs) = Some (Dir []) ∧
      console (run d evs) = [Err missing_message None]
  end.
Proof.
  unfold themeSrc. rewrite get_top. intros Hsrc.
  assert (∃ d' l, start (init d) = failed d' l ∧
    (∀ q, off_theme q → get q (Dir d') = get q (Dir d)) ∧
    match assoc "theme" d with
    | Some (File _) => d' = d ∧ ∃ e, l = Err failure_message (Some e)
    | _ => get themeDir (Dir d') = Some (Dir []) ∧ l = Err missing_message None
    end) as (d' & l & Hs & Hf & Hm).
  { unfold start, top_level, buildTheme, try_catch, buildTheme_try, bind.
    rewrite stage_init, Hsrc.
    destruct (assoc "theme" d) as [[c|es]|] eqn:Et; simpl.
    - exists d. eexists. split; [done|]. split; [done|]. eauto.
    - eexists _, _. split; [done|]. split.
      + intros q Hq. by apply get_upsert_off.
      + split; [|done]. simpl. by rewrite assoc_upsert_eq.
    - eexists _, _. split; [done|]. split.
      + intros q Hq. by apply get_upsert_off.
      + split; [|done]. simpl. by rewrite assoc_upsert_eq. }
  rewrite (run_failed d evs d' l Hs). split; [done|]. split; [done|].
  destruct (assoc "theme" d) as [[c|es]|]; simpl.
  - destruct Hm as [-> [e ->]]. eauto.
  - destruct Hm as [? ->]. done.
  - destruct Hm as [? ->]. done.
Qed.

Lemma missing_template_witness :
  exit_code (run no_template_disk quiet) = Some 1%Z ∧
  lookup_path themeDir (run no_template_disk quiet) = Some (Dir []) ∧
  console (run no_template_disk quiet) = [Err missing_message None].
Proof.
  destruct (missing_template no_template_disk quiet) as (Hc & _ & Ht & Hl).
  - reflexivity.
  - done.
Defined.

(** C1, as stated, fails: the staged directory of an earlier run is emptied
    although the template tree is missing. *)
Lemma missing_template_clears_output :
  ¬ ∀ d evs,
      get themeSrc (Dir d) = None →
      (∃ c, exit_code (run d evs) = Some c ∧ c ≠ 0%Z) ∧
      lookup_path themeDir (run d evs) = get themeDir (Dir d).
Proof.
  intros H. destruct (H no_template_disk [] eq_refl) as [_ Hd].
  vm_compute in Hd. discriminate.
Qed.

Lemma frame_ensureDir_assets P :
  (∀ q, P q → off_theme q) → preserves (frame P) (ensureDir themeAssets).
Proof.
  intros HP. apply frame_fs_op. intros q Hq.
  by apply (off_theme_diverge ["assets"]), HP.
Qed.

(** Without [dist/assets] the synchronous part stops in [readdir] at the
    latest, and has touched nothing outside the staged directory. *)
Lemma try_without_build d :
  get distAssets (Dir d) = None →
  ∃ r w',
    buildTheme_try (init d) = (r, w') ∧ r ≠ Val tt ∧
    frame off_theme (init d) w' ∧
    (∀ w, (stage ;;; ensureDir themeAssets) (init d) = (Val tt, w) →
          r = Throw (MkError ENOENT "scandir" distAssets)).
Proof.
  intros Hd. unfold buildTheme_try, normalize, bind.
  destruct (stage (init d)) as [r1 w1] eqn:E1.
  assert (frame off_theme (init d) w1) as F1 by (by eapply (frame_stage off_theme)).
  destruct r1 as [[]|e|c]; [|by eexists _, _..].
  destruct (ensureDir themeAssets w1) as [r2 w2] eqn:E2.
  assert (frame off_theme w1 w2) as F2
    by (by eapply (frame_ensureDir_assets off_theme)).
  assert (frame off_theme (init d) w2) as F by (by etransitivity).
  destruct r2 as [[]|e|c]; [|by eexists _, _..].
  unfold readdir. rewrite (F distAssets) by done.
  unfold lookup_path. simpl disk. rewrite Hd. by eexists _, _.
Qed.

(** C8. Without the build output directory the run ends with status 1
    after one line on the error channel, and the archive path holds what it
    held before (nothing, if there was no archive). When staging got as far
    as the build output, that line is the [catch] clause's, with the
    [ENOENT] error that names [dist/assets]. *)
Theorem missing_build_output d evs :
  get distAssets (Dir d) = None →
  exit_code (run d evs) = Some 1%Z ∧
  (∃ msg e, console (run d evs) = [Err msg e]) ∧
  lookup_path themeZip (run d evs) = get themeZip (Dir d) ∧
  (∀ w, (stage ;;; ensureDir themeAssets) (init d) = (Val tt, w) →
        console (run d evs) =
          [Err failure_message (Some (MkError ENOENT "scandir" distAssets))]).
Proof.
  intros Hd. destruct (try_without_build d Hd) as (r & w' & Ht & Hr & Hf & Hs).
  assert (get themeZip (Dir (disk w')) = get themeZip (Dir d)) as Hz
    by (by apply (Hf themeZip)).
  destruct (start_failed d r w' Ht Hr) as [[-> H]|(e & -> & H)];
    rewrite (run_failed d evs _ _ H).
  - split; [done|]. split; [by eexists _, _|]. split; [done|].
    intros w Hw. by specialize (Hs w Hw).
  - split; [done|]. split; [by eexists _, _|]. split; [done|].
    intros w Hw. specialize (Hs w Hw). by simplify_eq.
Qed.

Lemma missing_build_output_witness :
  exit_code (run no_build_disk quiet) = Some 1%Z ∧
  lookup_path themeZip (run no_build_disk quiet) = get themeZip (Dir no_build_disk) ∧
  console (run no_build_disk quiet) =
    [Err failure_message (Some (MkError ENOENT "scandir" distAssets))].
Proof.
  destruct (missing_build_output no_build_disk quiet eq_refl) as (Hc & _ & Hz & Hl).
  split; [exact Hc|]. split; [exact Hz|].
  eapply Hl. vm_compute. reflexivity.
Defined.

(** * Failures and the [catch] clause (lines 61-72) *)

Lemma proc_flush w : proc (flush w) = proc w.
Proof. unfold flush. by destruct (sink w), (produced w), (piped w). Qed.

Lemma exited_step w ev :
  armed w →
  (∀ c, proc w = Exited c →
        c = 1%Z ∧ ∃ e, last (console w) = Some (Err failure_message (Some e))) →
  ∀ c, proc (deliver w ev) = Exited c →
       c = 1%Z ∧ ∃ e, last (console (deliver w ev)) = Some (Err failure_message (Some e)).
Proof.
  intros Hw Hc. destruct (alive w) eqn:Ha; [|by rewrite deliver_dead].
  rewrite deliver_armed by done.
  destruct ev as [[] [] [e|]|[e|]]; try done.
  1,2: intros c Hp; change (proc (flush w) = Exited c) in Hp;
    rewrite proc_flush in Hp; unfold alive in Ha; rewrite Hp in Ha; done.
  - unfold alive in Ha.
    destruct (proc w) eqn:Hp; try done; try (by intros c Hc'; rewrite Hp in Hc').
    simpl. intros c [= <-]. split; [done|]. exists e. by rewrite last_snoc.
  - unfold alive in Ha.
    destruct (proc w) eqn:Hp; try done; by intros c Hc'; rewrite ?Hp in Hc'.
Qed.

(** While the process is alive, an [error] event of the archive is rethrown
    by its listener from the event loop, where no [try] block encloses it:
    the process ends on an uncaught exception and nothing is printed by the
    script. *)
Lemma archive_error_uncaught d evs e :
  proc (run d evs) = Awaiting ∨ proc (run d evs) = Returned →
  run d (evs ++ [Emitted Archive SigError (Some e)]) =
    set_status (Crashed e) (run d evs).
Proof.
  intros Hp. unfold run at 1. rewrite foldl_app. fold (run d evs). simpl.
  destruct (run_cases d evs) as [(l & Hl & _ & Hr)|[Hs Hr]].
  - rewrite Hr, Hl in Hp. by destruct Hp.
  - rewrite deliver_armed; [done| |].
    + rewrite Hr. apply (foldl_deliver_inv armed); [|done].
      intros. by apply armed_deliver.
    + unfold alive. by destruct Hp as [-> | ->].
Qed.

(** C6, as the script has it. An error thrown inside the [try] block
    reaches the [catch] clause, which prints it and ends the process with
    status 1, and so does a rejection of the awaited promise of
    [finalize]. The missing template is not thrown: the guard prints its own
    line and ends the process itself. Whenever a run has ended through
    [process.exit], the status is 1 and the last line on the error channel
    is one of these two. *)
Theorem failures_reported d evs :
  (∀ e w', buildTheme_try (init d) = (Throw e, w') →
     run d evs = failed (disk w') (Err failure_message (Some e))) ∧
  (∀ e, proc (run d evs) = Awaiting →
     proc (run d (evs ++ [Settled (Some e)])) = Exited 1 ∧
     console (run d (evs ++ [Settled (Some e)])) =
       console (run d evs) ++ [Err failure_message (Some e)]) ∧
  (∀ c, proc (run d evs) = Exited c →
     c = 1%Z ∧
     ∃ l, last (console (run d evs)) = Some l ∧
          (l = Err missing_message None ∨ ∃ e, l = Err failure_message (Some e))).
Proof.
  split_and!.
  - intros e w' Ht. apply run_failed.
    destruct (start_failed d _ _ Ht) as [[? _]|(e' & ? & ?)]; by simplify_eq.
  - intros e Hp. unfold run in *. rewrite foldl_app. simpl.
    set (w := foldl deliver (start (init d)) evs) in *.
    unfold deliver, alive. rewrite Hp. done.
  - destruct (run_cases d evs) as [(l & Hl & Hk & ->)|[Hs ->]].
    + rewrite Hl. simpl. intros c [= <-]. split; [done|]. exists l.
      split; [done|]. done.
    + intros c Hc.
      cut (c = 1%Z ∧ ∃ e, last (console (foldl deliver
             (suspended (disk (start (init d)))) evs)) =
             Some (Err failure_message (Some e))).
      { intros [? [e ?]]. split; [done|]. eauto. }
      revert c Hc.
      apply (foldl_deliver_inv (λ w, armed w ∧ ∀ c, proc w = Exited c →
        c = 1%Z ∧ ∃ e, last (console w) = Some (Err failure_message (Some e)))).
      * intros w ev [Hw Hi]. split; [by apply armed_deliver|].
        by apply exited_step.
      * split; [done|]. done.
Qed.

Lemma failures_reported_witness :
  run no_build_disk quiet =
    failed (disk (buildTheme_try (init no_build_disk)).2)
      (Err failure_message (Some (MkError ENOENT "scandir" distAssets))) ∧
  proc (run sample_disk ([] ++ [Settled (Some (MkError EIO "write" themeZip))])) =
    Exited 1 ∧
  console (run sample_disk ([] ++ [Settled (Some (MkError EIO "write" themeZip))])) =
    console (run sample_disk []) ++
      [Err failure_message (Some (MkError EIO "write" themeZip))].
Proof.
  split.
  - apply (failures_reported no_build_disk quiet). vm_compute. reflexivity.
  - apply (failures_reported sample_disk []). vm_compute. reflexivity.
Defined.

(** C6, as stated, fails: the run without a template tree ends with status
    1 and the [catch] clause has printed nothing. *)
Lemma guard_bypasses_catch :
  ¬ ∀ d evs c,
      exit_code (run d evs) = Some c →
      c ≠ 0%Z ∧ ∃ e, Err failure_message (Some e) ∈ console (run d evs).
Proof.
  intros H. destruct (H no_template_disk [] 1%Z eq_refl) as [_ [e He]].
  vm_compute in He. apply list_elem_of_singleton in He. discriminate.
Qed.

(** * What normalizing leaves in [theme/assets] *)

Lemma copy_onto_is_Some dest n dst : is_Some (copy_onto dest n dst).1.
Proof.
  destruct dst as [[c|ds]|]; [| |rewrite copy_onto_None; eauto].
  - destruct n; simpl; eauto.
  - destruct (copy_onto_dir dest n ds) as [ds' ->]. eauto.
Qed.

Lemma assets_not_prefix file t :
  bool_decide ((distAssets ++ [file]) `prefix_of` (themeAssets ++ [t])) = false.
Proof. apply bool_decide_eq_false_2, diverge_not_prefix. done. Qed.

Lemma off_theme_dist q : off_theme (distAssets ++ q).
Proof. done. Qed.

(** One turn of the loop: the built asset [file] is copied onto the entry
    [target_name file] of the staged assets directory. *)
Lemma copy_asset_step w file w' A :
  lookup_path themeAssets w = Some (Dir A) →
  copy_asset file w = (Val tt, w') →
  ∃ n v,
    lookup_path (distAssets ++ [file]) w = Some n ∧
    copy_onto (themeAssets ++ [target_name file]) n (assoc (target_name file) A) =
      (Some v, None) ∧
    lookup_path themeAssets w' = Some (Dir (upsert (target_name file) v A)) ∧
    frame off_theme w w'.
Proof.
  intros HA. rewrite copy_asset_target. intros H.
  assert (frame off_theme w w') as Hf.
  { revert H. apply preserves_copy; [apply _|]. intros n. apply frame_fs_op.
    intros q. apply (off_theme_diverge ["assets"; target_name file]). }
  unfold copy in H.
  destruct (lookup_path (distAssets ++ [file]) w) as [n|] eqn:En; [|done].
  rewrite assets_not_prefix in H. unfold fs_op in H.
  set (dest := themeAssets ++ [target_name file]) in *.
  destruct (modify_root_child "copy" themeAssets (target_name file)
              (copy_onto dest n) (disk w) A HA) as [Hg He].
  fold dest in Hg, He.
  destruct (modify_root "copy" dest (copy_onto dest n) (disk w)) as [d' e] eqn:Em.
  simpl in Hg, He.
  destruct (copy_onto_is_Some dest n (assoc (target_name file) A)) as [v Hv].
  destruct (copy_onto dest n (assoc (target_name file) A)) as [r e'] eqn:Ec.
  simpl in *. subst r e'.
  destruct e as [e|]; simplify_eq.
  exists n, v. done.
Qed.

Lemma filter_target_nil (t : string) (L : list string) :
  filter (λ f, target_name f = t) L = [] → t ∉ target_name <$> L.
Proof.
  intros H (f & -> & Hf)%list_elem_of_fmap.
  by apply (filter_nil_not_elem_of _ _ f H).
Qed.

(** The loop: every name it wrote holds what the last asset with that
    target held, every other name is as before. *)
Lemma for_of_copy_asset L : ∀ w w' A,
  lookup_path themeAssets w = Some (Dir A) →
  for_of L copy_asset w = (Val tt, w') →
  ∃ A',
    lookup_path themeAssets w' = Some (Dir A') ∧
    frame off_theme w w' ∧
    (∀ y, y ∈ names A' ↔ y ∈ names A ∨ y ∈ target_name <$> L) ∧
    (∀ t, t ∉ target_name <$> L → assoc t A' = assoc t A) ∧
    (∀ t f c,
       last (filter (λ f, target_name f = t) L) = Some f →
       lookup_path (distAssets ++ [f]) w = Some (File c) →
       assoc t A' = Some (File c)).
Proof.
  induction L as [|x L IH]; intros w w' A HA H; simpl in H.
  - unfold ret in H. simplify_eq. exists A. split_and!; try done.
    intros y. rewrite fmap_nil, elem_of_nil. naive_solver.
  - apply bind_Val in H as ([] & w1 & Hx & HL).
    destruct (copy_asset_step w x w1 A HA Hx) as (n & v & Hn & Hc & HA1 & F1).
    destruct (IH w1 w' _ HA1 HL) as (A' & HA' & F' & Hnames & Hkeep & Hlast).
    exists A'. split_and!; [done|by etransitivity| | |].
    + intros y. rewrite Hnames, elem_of_names_upsert, fmap_cons, elem_of_cons.
      naive_solver.
    + intros t. rewrite fmap_cons, not_elem_of_cons. intros [Htx Ht].
      rewrite Hkeep by done. by apply assoc_upsert_ne.
    + intros t f c. rewrite filter_cons.
      destruct (filter (λ f, target_name f = t) L) as [|g fs] eqn:Ef.
      * case_decide as Ht; [|done]. simpl. intros [= <-] Hsrc.
        rewrite Hkeep by (by apply filter_target_nil).
        rewrite Ht, assoc_upsert_eq. f_equal.
        change (lookup_path (distAssets ++ [x]) w = Some (File c)) in Hsrc.
        rewrite Hn in Hsrc. simplify_eq.
        apply copy_onto_file_inv in Hc. by simplify_eq.
      * intros Hl Hsrc. apply (Hlast t f c).
        -- rewrite Ef. case_decide; [by rewrite last_cons_cons in Hl|done].
        -- rewrite <-Hsrc. apply F1, off_theme_dist.
Qed.

Lemma oget_nil o : oget [] o = o.
Proof. by destruct o. Qed.

Lemma modify_get call whole p f cur :
  (∀ o, is_Some (f o).1) →
  (modify call whole p f cur).2 = None →
  oget p (modify call whole p f cur).1 = (f (oget p cur)).1 ∧
  (f (oget p cur)).2 = None.
Proof.
  intros Hf. revert cur. induction p as [|x p IH]; intros cur He; simpl in *.
  - by rewrite !oget_nil.
  - destruct cur as [[d|es]|]; simpl in *; [done| |].
    + specialize (IH (assoc x es)).
      destruct (modify call whole p f (assoc x es)) as [r e]; simpl in *.
      destruct (IH He) as [IH1 IH2]. split; [|done].
      destruct (Hf (oget p (assoc x es))) as [v Hv].
      rewrite Hv in IH1. destruct r as [v'|]; [|done]. simpl.
      rewrite assoc_upsert_eq. simpl. fold (oget p (assoc x es)). by rewrite Hv.
    + specialize (IH None).
      destruct (modify call whole p f None) as [r e]; simpl in *.
      destruct (IH He) as [IH1 IH2]. split; [|done].
      destruct (Hf None) as [v Hv].
      rewrite Hv in IH1. destruct r as [v'|]; [|done]. simpl.
      rewrite decide_True by done. simpl. by rewrite Hv.
Qed.

(** A successful update has put at [p] what the update computes from what
    was at [p]. *)
Lemma fs_op_Val call x p f w w' :
  (∀ o, is_Some (f o).1) →
  fs_op call (x :: p) f w = (Val tt, w') →
  lookup_path (x :: p) w' = (f (lookup_path (x :: p) w)).1 ∧
  (f (lookup_path (x :: p) w)).2 = None.
Proof.
  intros Hf H. unfold fs_op, modify_root in H.
  pose proof (modify_get call (x :: p) (x :: p) f (Some (Dir (disk w))) Hf) as Hg.
  destruct (modify_Some call (x :: p) x p f (Dir (disk w))) as [n Hn].
  destruct (modify call (x :: p) (x :: p) f (Some (Dir (disk w)))) as [r e] eqn:Em.
  simpl in Hn. subst r.
  assert (∃ es, n = Dir es) as [es ->].
  { simpl in Em.
    destruct (modify call (x :: p) p f (assoc x (disk w))); simplify_eq. eauto. }
  destruct e as [e|]; simplify_eq. by apply Hg.
Qed.

Lemma ensureDir_Val x p w w' :
  ensureDir (x :: p) w = (Val tt, w') →
  ∃ A, lookup_path (x :: p) w' = Some (Dir A) ∧
       match lookup_path (x :: p) w with
       | Some (Dir A0) => A = A0
       | Some (File _) => False
       | None => A = []
       end.
Proof.
  intros H. apply fs_op_Val in H as [H1 H2].
  - destruct (lookup_path (x :: p) w) as [[c|A0]|]; simpl in *; [done|eauto..].
  - intros [[?|?]|]; simpl; eauto.
Qed.

Lemma readdir_Val p w L w' :
  readdir p w = (Val L, w') →
  w' = w ∧ ∃ B, lookup_path p w = Some (Dir B) ∧ L = names B.
Proof.
  unfold readdir. destruct (lookup_path p w) as [[c|B]|]; intros; simplify_eq.
  eauto.
Qed.

Lemma lookup_path_app p q w :
  lookup_path (p ++ q) w = lookup_path p w ≫= get q.
Proof. apply get_app. Qed.

(** The staged assets directory after a successful normalization, entry by
    entry, in terms of the staged assets and the build output before it. *)
Lemma normalize_Val w w' :
  normalize w = (Val tt, w') →
  ∃ B A',
    lookup_path distAssets w = Some (Dir B) ∧
    lookup_path themeAssets w' = Some (Dir A') ∧
    (∀ y, y ∈ names A' ↔ y ∈ names (staged_assets w) ∨ y ∈ target_name <$> names B) ∧
    (∀ t, t ∉ target_name <$> names B → assoc t A' = assoc t (staged_assets w)) ∧
    (∀ t f c,
       last (filter (λ f, target_name f = t) (names B)) = Some f →
       assoc f B = Some (File c) →
       assoc t A' = Some (File c)).
Proof.
  unfold normalize. intros H.
  apply bind_Val in H as ([] & w1 & He & H).
  apply bind_Val in H as (L & w2 & Hr & H).
  apply readdir_Val in Hr as [-> (B & HB & ->)].
  assert (frame off_theme w w1) as F1
    by (by eapply (frame_ensureDir_assets off_theme)).
  apply ensureDir_Val in He as (A & HA & HA0).
  assert (A = staged_assets w) as ->.
  { unfold staged_assets, themeAssets.
    by destruct (lookup_path ["theme"; "assets"] w) as [[c|A0]|]. }
  destruct (for_of_copy_asset _ _ _ _ HA H) as (A' & HA' & F' & Hn & Hk & Hl).
  exists B, A'. rewrite <-(F1 distAssets) by done. split_and!; try done.
  intros t f c Hlast Hf. apply (Hl t f c Hlast).
  rewrite lookup_path_app, HB. simpl. by rewrite Hf.
Qed.

(** * File names *)

Lemma substring_step a k s c t :
  String.substring a (S k) s = String c t → String.substring (S a) k s = t.
Proof.
  revert s. induction a as [|a IH]; intros [|c' s]; simpl; try done.
  - by intros [= _ <-].
  - apply IH.
Qed.

Lemma endsWith_inv s suffix :
  endsWith s suffix = true →
  String.length suffix ≤ String.length s ∧
  String.substring (String.length s - String.length suffix)
    (String.length suffix) s = suffix.
Proof.
  unfold endsWith. intros [H1 H2]%andb_prop.
  split; [by apply Nat.leb_le|by apply String.eqb_eq].
Qed.

(** No name ends in both [.css] and [.js]: the two renaming branches of
    the loop never compete for a file. *)
Lemma css_not_js file : is_css file → ¬ is_js file.
Proof.
  intros [Hl1 Hs1]%endsWith_inv [Hl2 Hs2]%endsWith_inv. simpl in *.
  apply substring_step in Hs1.
  replace (S (String.length file - 4)) with (String.length file - 3) in Hs1 by lia.
  congruence.
Qed.

Lemma target_name_css file : target_name file = "index.css" ↔ is_css file.
Proof.
  unfold target_name, is_css.
  destruct (endsWith file ".css") eqn:E1; [done|].
  destruct (endsWith file ".js") eqn:E2; [done|].
  split; [|done]. intros ->. done.
Qed.

Lemma target_name_js file : target_name file = "index.js" ↔ is_js file.
Proof.
  unfold target_name. split.
  - destruct (endsWith file ".css") eqn:E1; [done|].
    destruct (endsWith file ".js") eqn:E2; [done|]. intros ->. done.
  - intros Hjs. destruct (endsWith file ".css") eqn:E1.
    + by destruct (css_not_js file).
    + unfold is_js in Hjs. by rewrite Hjs.
Qed.

Lemma target_name_other file : is_other file → target_name file = file.
Proof. unfold target_name. by intros [-> ->]. Qed.

Lemma target_name_other_inv file g : is_other file → target_name g = file → g = file.
Proof.
  intros [H1 H2]. unfold target_name.
  destruct (endsWith g ".css"); [by intros <-|].
  destruct (endsWith g ".js"); [by intros <-|]. done.
Qed.

Lemma last_filter_unique {A} (P : A → Prop) `{!∀ x, Decision (P x)} (L : list A) f :
  f ∈ L → P f → (∀ g, g ∈ L → P g → g = f) → last (filter P L) = Some f.
Proof.
  intros Hf HP Hu.
  assert (f ∈ filter P L) as Hin by (by apply list_elem_of_filter).
  destruct (last (filter P L)) as [g|] eqn:El.
  - apply last_Some_elem_of, list_elem_of_filter in El as [? ?].
    f_equal. by apply Hu.
  - apply last_None in El. rewrite El in Hin. by apply elem_of_nil in Hin.
Qed.

Lemma built_assets_Some w B :
  lookup_path distAssets w = Some (Dir B) → built_assets w = B.
Proof. unfold built_assets. by intros ->. Qed.

Lemma staged_assets_Some w A :
  lookup_path themeAssets w = Some (Dir A) → staged_assets w = A.
Proof. unfold staged_assets. by intros ->. Qed.

Lemma lookup_built w B f :
  lookup_path distAssets w = Some (Dir B) →
  lookup_path (distAssets ++ [f]) w = assoc f B.
Proof. intros H. rewrite lookup_path_app, H. simpl. by destruct (assoc f B). Qed.

Lemma lookup_staged w A f :
  lookup_path themeAssets w = Some (Dir A) →
  lookup_path (themeAssets ++ [f]) w = assoc f A.
Proof. intros H. rewrite lookup_path_app, H. simpl. by destruct (assoc f A). Qed.

(** The three branches of the loop body. *)
Lemma copy_asset_branches file :
  (is_css file →
   copy_asset file = copy (distAssets ++ [file]) (themeAssets ++ ["index.css"])) ∧
  (is_js file →
   copy_asset file = copy (distAssets ++ [file]) (themeAssets ++ ["index.js"])) ∧
  (is_other file →
   copy_asset file = copy (distAssets ++ [file]) (themeAssets ++ [file])).
Proof.
  rewrite copy_asset_target. split_and!.
  - by intros ->%target_name_css.
  - by intros ->%target_name_js.
  - by intros ->%target_name_other.
Qed.

(** After a successful normalization, a staged name holds the bytes of the
    last built file, in the order of the listing, that was copied to it. *)
Lemma normalize_last_writer (P : string → Prop) `{!∀ f, Decision (P f)} t w w' f c :
  (∀ g, target_name g = t ↔ P g) →
  normalize w = (Val tt, w') →
  last (filter P (names (built_assets w))) = Some f →
  lookup_path (distAssets ++ [f]) w = Some (File c) →
  lookup_path (themeAssets ++ [t]) w' = Some (File c).
Proof.
  intros HP Hnorm Hl Hf.
  destruct (normalize_Val w w' Hnorm) as (B & A' & HB & HA' & _ & _ & Hlast).
  rewrite (built_assets_Some w B) in Hl by done.
  rewrite (lookup_staged w' A') by done.
  apply (Hlast t f c); [|by rewrite <-(lookup_built w B)].
  rewrite <-Hl. f_equal. by apply list_filter_iff.
Qed.

Lemma normalize_other w w' f c :
  normalize w = (Val tt, w') →
  f ∈ names (built_assets w) → is_other f →
  lookup_path (distAssets ++ [f]) w = Some (File c) →
  lookup_path (themeAssets ++ [f]) w' = Some (File c).
Proof.
  intros Hnorm Hin Ho Hf.
  apply (normalize_last_writer (λ g, g = f) f w w' f c); [|done| |done].
  - intros g. split; [by apply target_name_other_inv|].
    intros ->. by apply target_name_other.
  - apply last_filter_unique; [done..|]. by intros g _ ->.
Qed.

(** C2. Each entry of the build output, taken from the one-level listing of
    [dist/assets], is copied by its extension: to [index.css] when the name
    ends in [.css], to [index.js] when it ends in [.js], under its own name
    otherwise. After the loop, [index.css] holds the bytes of the last
    stylesheet of the listing, [index.js] those of the last script, whatever
    these targets held before, and every other file is staged under its
    name with its bytes. *)
Theorem normalize_by_extension w w' :
  normalize w = (Val tt, w') →
  let L := names (built_assets w) in
  (∀ file,
     (is_css file →
      copy_asset file = copy (distAssets ++ [file]) (themeAssets ++ ["index.css"])) ∧
     (is_js file →
      copy_asset file = copy (distAssets ++ [file]) (themeAssets ++ ["index.js"])) ∧
     (is_other file →
      copy_asset file = copy (distAssets ++ [file]) (themeAssets ++ [file]))) ∧
  (∀ f c,
     last (filter is_css L) = Some f →
     lookup_path (distAssets ++ [f]) w = Some (File c) →
     lookup_path (themeAssets ++ ["index.css"]) w' = Some (File c)) ∧
  (∀ f c,
     last (filter is_js L) = Some f →
     lookup_path (distAssets ++ [f]) w = Some (File c) →
     lookup_path (themeAssets ++ ["index.js"]) w' = Some (File c)) ∧
  (∀ f c,
     f ∈ L → is_other f →
     lookup_path (distAssets ++ [f]) w = Some (File c) →
     lookup_path (themeAssets ++ [f]) w' = Some (File c)).
Proof.
  intros H L. split_and!.
  - apply copy_asset_branches.
  - intros f c. apply (normalize_last_writer is_css); [|done].
    apply target_name_css.
  - intros f c. apply (normalize_last_writer is_js); [|done].
    apply target_name_js.
  - intros f c. by apply normalize_other.
Qed.

Lemma normalize_by_extension_witness :
  lookup_path (themeAssets ++ ["index.css"])
    (normalize (stage (init sample_disk)).2).2 = Some (File (Bytes "body{}")) ∧
  lookup_path (themeAssets ++ ["index.js"])
    (normalize (stage (init sample_disk)).2).2 = Some (File (Bytes "main()")) ∧
  lookup_path (themeAssets ++ ["logo.png"])
    (normalize (stage (init sample_disk)).2).2 = Some (File (Bytes "PNG")).
Proof.
  assert (normalize (stage (init sample_disk)).2 =
          (Val tt, (normalize (stage (init sample_disk)).2).2)) as H
    by (vm_compute; reflexivity).
  destruct (normalize_by_extension _ _ H) as (_ & Hcss & Hjs & Hother).
  split_and!.
  - apply (Hcss "bundle.a1b2.css"); vm_compute; reflexivity.
  - apply (Hjs "bundle.a1b2.js"); vm_compute; reflexivity.
  - apply Hother; [|split|]; try (vm_compute; reflexivity).
    vm_compute. apply list_elem_of_In. simpl. tauto.
Defined.

Lemma elem_of_targets (L : list string) y :
  y ∈ target_name <$> L ↔
    (y = "index.css" ∧ ∃ f, f ∈ L ∧ is_css f) ∨
    (y = "index.js" ∧ ∃ f, f ∈ L ∧ is_js f) ∨
    (y ∈ L ∧ is_other y).
Proof.
  rewrite list_elem_of_fmap. split.
  - intros (f & -> & Hf). unfold target_name.
    destruct (endsWith f ".css") eqn:E1; [left; eauto|].
    destruct (endsWith f ".js") eqn:E2; [right; left; eauto|].
    right; right. done.
  - intros [[-> (f & Hf & Hc)]|[[-> (f & Hf & Hj)]|[Hy Ho]]].
    + exists f. split; [|done]. symmetry. by apply target_name_css.
    + exists f. split; [|done]. symmetry. by apply target_name_js.
    + exists y. split; [|done]. symmetry. by apply target_name_other.
Qed.

Lemma filter_singleton_elem {A} (P : A → Prop) `{!∀ x, Decision (P x)} (L : list A) f :
  filter P L = [f] → f ∈ L ∧ P f.
Proof.
  intros Hf. assert (f ∈ filter P L) as Hin by (rewrite Hf; apply list_elem_of_here).
  apply list_elem_of_filter in Hin. tauto.
Qed.

(** C3, as the script has it. With exactly one stylesheet and one script in
    the build output, the staged assets directory holds after normalization
    [index.css], [index.js], the other built files under their names, and
    the entries it held before normalization (what the template tree
    brought along), and nothing else; the two renamed files and the other
    built files have the bytes of their sources. *)
Theorem normalize_single_assets w w' fc fj cc cj :
  normalize w = (Val tt, w') →
  let L := names (built_assets w) in
  filter is_css L = [fc] →
  filter is_js L = [fj] →
  lookup_path (distAssets ++ [fc]) w = Some (File cc) →
  lookup_path (distAssets ++ [fj]) w = Some (File cj) →
  (∀ y, y ∈ names (staged_assets w') ↔
        y = "index.css" ∨ y = "index.js" ∨ y ∈ filter is_other L ∨
        y ∈ names (staged_assets w)) ∧
  lookup_path (themeAssets ++ ["index.css"]) w' = Some (File cc) ∧
  lookup_path (themeAssets ++ ["index.js"]) w' = Some (File cj) ∧
  (∀ f c,
     f ∈ filter is_other L →
     lookup_path (distAssets ++ [f]) w = Some (File c) →
     lookup_path (themeAssets ++ [f]) w' = Some (File c)).
Proof.
  intros H L Hcss Hjs Hcc Hcj.
  destruct (normalize_Val w w' H) as (B & A' & HB & HA' & Hn & _ & _).
  assert (L = names B) as HL by (unfold L; by rewrite (built_assets_Some w B)).
  apply filter_singleton_elem in Hcss as Hfc.
  apply filter_singleton_elem in Hjs as Hfj.
  split_and!.
  - intros y. rewrite (staged_assets_Some w' A') by done.
    rewrite Hn, <-HL, elem_of_targets, list_elem_of_filter. naive_solver.
  - apply (normalize_last_writer is_css "index.css" w w' fc);
      [apply target_name_css|done| |done].
    fold L. by rewrite Hcss.
  - apply (normalize_last_writer is_js "index.js" w w' fj);
      [apply target_name_js|done| |done].
    fold L. by rewrite Hjs.
  - intros f c [? ?]%list_elem_of_filter. by apply (normalize_other w w').
Qed.

Lemma normalize_single_assets_witness :
  (∀ y, y ∈ names (staged_assets (normalize (stage (init sample_disk)).2).2) ↔
        y = "index.css" ∨ y = "index.js" ∨
        y ∈ filter is_other (names (built_assets (stage (init sample_disk)).2)) ∨
        y ∈ names (staged_assets (stage (init sample_disk)).2)) ∧
  lookup_path (themeAssets ++ ["index.css"])
    (normalize (stage (init sample_disk)).2).2 = Some (File (Bytes "body{}")).
Proof.
  assert (normalize (stage (init sample_disk)).2 =
          (Val tt, (normalize (stage (init sample_disk)).2).2)) as H
    by (vm_compute; reflexivity).
  destruct (normalize_single_assets _ _ "bundle.a1b2.css" "bundle.a1b2.js"
              (Bytes "body{}") (Bytes "main()") H) as (Hn & Hc & _);
    try (vm_compute; reflexivity).
  split; [exact Hn|exact Hc].
Defined.

(** C3, as stated, fails: the template tree's own assets are staged too,
    next to [index.css], [index.js] and the other built files. *)
Lemma template_assets_are_staged :
  ¬ ∀ w w' fc fj,
      normalize w = (Val tt, w') →
      filter is_css (names (built_assets w)) = [fc] →
      filter is_js (names (built_assets w)) = [fj] →
      ∀ y, y ∈ names (staged_assets w') →
           y = "index.css" ∨ y = "index.js" ∨
           y ∈ filter is_other (names (built_assets w)).
Proof.
  intros H.
  specialize (H (stage (init template_assets_disk)).2
                (normalize (stage (init template_assets_disk)).2).2
                "bundle.a1b2.css" "bundle.a1b2.js").
  specialize (H ltac:(vm_compute; reflexivity) ltac:(vm_compute; reflexivity)
                ltac:(vm_compute; reflexivity) "base.css.liquid").
  destruct H as [H|[H|H]].
  - vm_compute. apply list_elem_of_here.
  - discriminate.
  - discriminate.
  - vm_compute in H. apply list_elem_of_singleton in H. discriminate.
Qed.

(** * Staging copies the template exactly *)

(** Well-formedness of a tree that is written out. *)
Ltac solve_NoDup :=
  repeat (apply NoDup_cons_2;
          [rewrite ?elem_of_cons, ?elem_of_nil; intros ?; intuition discriminate|]);
  apply NoDup_nil_2.

Ltac solve_wf := unfold wf_dir; simpl; repeat split; try solve_NoDup.

Lemma keeps_wf_stage : preserves keeps_wf stage.
Proof.
  unfold stage.
  apply preserves_bind; [apply _| |intros _].
  { apply keeps_wf_fs_op. intros [[?|?]|] ?; simpl; try done; apply wf_empty. }
  apply preserves_bind; [apply _|apply preserves_existsSync, _|intros found].
  apply preserves_bind; [apply _| |intros _; apply keeps_wf_copy].
  apply preserves_if; [|apply preserves_ret, _].
  apply preserves_bind; [apply _| |intros _; apply preserves_exit, _].
  intros w r w' [= <- <-]. by unfold keeps_wf.
Qed.

(** After a successful staging of a well-formed tree, the staged directory
    is the template tree, entry for entry. *)
Lemma stage_Val d w1 :
  wf_dir d →
  stage (init d) = (Val tt, w1) →
  w1 = init (disk w1) ∧
  ∃ es, get themeSrc (Dir d) = Some (Dir es) ∧
        lookup_path themeDir w1 = Some (Dir es).
Proof.
  intros Hwf. rewrite stage_init. intros H.
  assert (∀ n, assoc "theme-src" d = Some n →
    (match (copy_onto themeDir n (Some (Dir []))).2 with
     | Some e => Throw e
     | None => Val tt
     end,
     init (set_opt "theme" (copy_onto themeDir n (Some (Dir []))).1
             (upsert "theme" (Dir []) d))) = (Val tt, w1) →
    w1 = init (disk w1) ∧
    ∃ es, assoc "theme-src" d = Some (Dir es) ∧
          lookup_path themeDir w1 = Some (Dir es)) as Hcopy.
  { intros n Hn Hc. pose proof (wf_assoc "theme-src" d Hwf) as Hwn.
    rewrite Hn in Hwn. destruct n as [c|es]; [by simplify_eq|].
    destruct Hwn as [Hnd _]. rewrite copy_onto_empty in Hc by done.
    simpl in Hc. simplify_eq. split; [done|]. exists es. split; [done|].
    unfold lookup_path. simpl. by rewrite assoc_upsert_eq. }
  unfold themeSrc. rewrite get_top.
  destruct (assoc "theme" d) as [[c|old]|]; [done| |].
  all: destruct (assoc "theme-src" d) as [n|] eqn:En; [|done].
  all: by apply (Hcopy n).
Qed.

(** C10. A built file that is neither a stylesheet nor a script and has the
    name of a file the template tree put into the staged assets replaces
    it: after staging the staged file is the template's, after normalizing
    it has the bytes of the built file. *)
Theorem built_asset_replaces_template d f t b w1 w2 :
  wf_dir d →
  is_other f →
  get (themeSrc ++ ["assets"; f]) (Dir d) = Some (File t) →
  get (distAssets ++ [f]) (Dir d) = Some (File b) →
  stage (init d) = (Val tt, w1) →
  normalize w1 = (Val tt, w2) →
  lookup_path (themeAssets ++ [f]) w1 = Some (File t) ∧
  lookup_path (themeAssets ++ [f]) w2 = Some (File b).
Proof.
  intros Hwf Ho Ht Hb Hs Hn.
  assert (frame off_theme (init d) w1) as F1 by (by eapply (frame_stage off_theme)).
  destruct (stage_Val d w1 Hwf Hs) as (_ & es & Hsrc & Hth).
  split.
  - rewrite get_app, Hsrc in Ht.
    change (themeAssets ++ [f]) with (themeDir ++ ["assets"; f]).
    by rewrite lookup_path_app, Hth.
  - assert (lookup_path (distAssets ++ [f]) w1 = Some (File b)) as Hf
      by (by rewrite (F1 (distAssets ++ [f]))).
    apply (normalize_other w1 w2); [done| |done..].
    rewrite lookup_path_app in Hf. unfold built_assets.
    destruct (lookup_path distAssets w1) as [[c|B]|]; try done.
    simpl in Hf. apply (assoc_Some_names f (File b)).
    by destruct (assoc f B).
Qed.

Lemma built_asset_replaces_template_witness :
  lookup_path (themeAssets ++ ["logo.png"]) (stage (init template_assets_disk)).2 =
    Some (File (Bytes "t2")) ∧
  lookup_path (themeAssets ++ ["logo.png"])
    (normalize (stage (init template_assets_disk)).2).2 = Some (File (Bytes "PNG")).
Proof.
  apply (built_asset_replaces_template template_assets_disk "logo.png"
           (Bytes "t2") (Bytes "PNG")).
  - solve_wf.
  - split; vm_compute; reflexivity.
  - reflexivity.
  - reflexivity.
  - vm_compute. reflexivity.
  - vm_compute. reflexivity.
Defined.

(** * Members of the archive (lines 51-67) *)

Lemma holds_cons_eq x c es q o :
  holds (Dir ((x, c) :: es)) (x :: q, o) ↔
    match o with
    | Some d => get q c = Some (File d)
    | None => ∃ cs, get q c = Some (Dir cs)
    end.
Proof.
  unfold holds. simpl. rewrite decide_True by done. simpl. naive_solver.
Qed.

Lemma holds_cons_ne x y c es q o :
  y ≠ x → holds (Dir ((x, c) :: es)) (y :: q, o) ↔ holds (Dir es) (y :: q, o).
Proof. intros. unfold holds. simpl. by rewrite decide_False. Qed.

Lemma holds_head es y q o : holds (Dir es) (y :: q, o) → y ∈ names es.
Proof.
  unfold holds. simpl. intros [_ H].
  destruct (assoc y es) eqn:E; [by eapply assoc_Some_names|].
  destruct o; naive_solver.
Qed.

Lemma holds_nil n o : ¬ holds n ([], o).
Proof. by intros [? _]. Qed.

Lemma elem_of_under x (ms : list member) q o :
  (x :: q, o) ∈ prod_map (cons x) id <$> ms ↔ (q, o) ∈ ms.
Proof.
  rewrite list_elem_of_fmap. split.
  - intros ([q' o'] & [= -> ->] & H). done.
  - intros H. by exists (q, o).
Qed.

Lemma under_head x y (ms : list member) q o :
  (y :: q, o) ∈ prod_map (cons x) id <$> ms → y = x.
Proof. rewrite list_elem_of_fmap. by intros ([q' o'] & [= -> _ _] & _). Qed.

Lemma under_nil x (ms : list member) o : ([], o) ∉ prod_map (cons x) id <$> ms.
Proof. rewrite list_elem_of_fmap. by intros ([q' o'] & [=] & _). Qed.

(** The members appended for one entry of a directory. *)
Lemma walk_entry x c q o :
  (∀ m, m ∈ walk c ↔ holds c m) →
  (x :: q, o) ∈
    match c with
    | File d => [([x], Some d)]
    | Dir _ => ([x], None) :: (prod_map (cons x) id <$> walk c)
    end ↔
  match o with
  | Some d => get q c = Some (File d)
  | None => ∃ cs, get q c = Some (Dir cs)
  end.
Proof.
  intros IH. destruct c as [d|cs].
  - rewrite list_elem_of_singleton. destruct q as [|z q], o as [d'|]; naive_solver.
  - rewrite elem_of_cons, elem_of_under, IH. unfold holds. simpl fst. simpl snd.
    destruct q as [|z q], o as [d'|]; naive_solver.
Qed.

Lemma walk_entries_spec es :
  all_entries (λ c, ∀ m, m ∈ walk c ↔ holds c m) es →
  NoDup (names es) →
  ∀ m, m ∈ walk_entries walk es ↔ holds (Dir es) m.
Proof.
  induction es as [|[x c] es IH]; simpl; intros Hall Hnd [p o].
  - rewrite elem_of_nil. split; [done|].
    destruct p as [|y q]; [by intros ?%holds_nil|].
    intros ?%holds_head. by apply elem_of_nil in H.
  - destruct Hall as [Hc Hall]. apply NoDup_cons in Hnd as [Hx Hnd].
    rewrite elem_of_app, (IH Hall Hnd).
    destruct p as [|y q].
    { split; [|by intros ?%holds_nil]. intros [H|H]; [|by apply holds_nil in H].
      destruct c; [by apply list_elem_of_singleton in H|].
      apply elem_of_cons in H as [?|H]; [done|]. by apply under_nil in H. }
    destruct (decide (y = x)) as [->|Hne].
    + rewrite holds_cons_eq, <-(walk_entry x c q o Hc). split; [|tauto].
      intros [H|H]; [done|]. apply holds_head in H. done.
    + rewrite holds_cons_ne by done. split; [|tauto].
      intros [H|H]; [|done]. destruct Hne.
      destruct c; [by apply list_elem_of_singleton in H; simplify_eq|].
      apply elem_of_cons in H as [?|H]; [by simplify_eq|]. by eapply under_head.
Qed.

(** The walk of a well-formed tree lists each file and each directory below
    its root once, under its path, and nothing else. *)
Lemma walk_spec n : wf_node n → ∀ m, m ∈ walk n ↔ holds n m.
Proof.
  induction n as [d|es IH] using node_rect'; intros Hwf [p o].
  - simpl. rewrite elem_of_nil. split; [done|]. unfold holds. simpl.
    intros [Hp H]. destruct p; [done|]. destruct o; naive_solver.
  - destruct Hwf as [Hnd Hall]. apply walk_entries_spec; [|done].
    by apply (all_entries_impl wf_node).
Qed.

Lemma start_Awaiting d :
  proc (start (init d)) = Awaiting →
  ∃ w1 w2,
    stage (init d) = (Val tt, w1) ∧
    normalize w1 = (Val tt, w2) ∧
    w2 = init (disk w2) ∧
    start (init d) =
      suspended (modify_root "open" themeZip (truncate_at themeZip) (disk w2)).1.
Proof.
  unfold start, top_level, buildTheme, try_catch.
  destruct (buildTheme_try (init d)) as [[[]|e|c] w'] eqn:E; [|done..].
  intros _. unfold buildTheme_try in E.
  apply bind_Val in E as ([] & w1 & Hs & E).
  apply bind_Val in E as ([] & w2 & Hn & E).
  exists w1, w2. split; [done|]. split; [done|].
  destruct (stage_init_cases d _ _ Hs) as [[_ Hw1]|[(e & ? & _)|[? _]]]; [|done..].
  rewrite Hw1 in Hn. apply normalize_init_cases in Hn as [_ Hw2].
  split; [done|]. rewrite Hw2 in E. unfold archive_setup, bind in E. simpl in E.
  unfold archive_finalize, ret in E. by simplify_eq.
Qed.

(** The run in which nothing fails, from the state in which the script is
    suspended: the archive of the staged directory is written to
    [theme.zip] and the success message is printed. *)
Lemma run_quiet d d' T :
  start (init d) = suspended d' →
  get themeDir (Dir d') = Some T →
  disk (run d quiet) =
    (modify_root "write" themeZip (write_at themeZip (Zip (walk T ++ []))) d').1.
Proof.
  intros Hs HT. unfold run. rewrite Hs. simpl.
  unfold members_of, lookup_path. simpl queued. simpl disk.
  change (p ← [themeDir]; default [] (walk <$> get p (Dir d')))
    with (default [] (walk <$> get themeDir (Dir d')) ++ []).
  rewrite HT. done.
Qed.

(** C4, as the script has it. After a run in which nothing fails,
    [theme.zip] is an archive whose members are the files of the staged
    directory, each under its path relative to [theme] and with its bytes,
    and the directories below [theme], each as a directory entry under its
    relative path; there is no other member. *)
Theorem archive_members d :
  wf_dir d →
  proc (start (init d)) = Awaiting →
  (∀ es, get themeZip (Dir d) ≠ Some (Dir es)) →
  ∃ ms,
    lookup_path themeZip (run d quiet) = Some (File (Zip ms)) ∧
    ∀ p,
      (∀ c, (p, Some c) ∈ ms ↔
            p ≠ [] ∧ lookup_path (themeDir ++ p) (run d quiet) = Some (File c)) ∧
      ((p, None) ∈ ms ↔
       p ≠ [] ∧ ∃ es, lookup_path (themeDir ++ p) (run d quiet) = Some (Dir es)).
Proof.
  intros Hwf Hp Hzip.
  destruct (start_Awaiting d Hp) as (w1 & w2 & Hs & Hn & Hw2 & Hstart).
  set (d' := (modify_root "open" themeZip (truncate_at themeZip) (disk w2)).1) in *.
  assert (frame off_theme (init d) w2) as F.
  { transitivity w1; [by eapply (frame_stage off_theme)|].
    by eapply (frame_normalize off_theme). }
  assert (wf_dir (disk w2)) as Hwf2.
  { eapply keeps_wf_normalize; [done|]. by eapply keeps_wf_stage. }
  destruct (normalize_Val _ _ Hn) as (B & A' & _ & HA' & _).
  assert (∃ T, lookup_path themeDir w2 = Some T) as [T HT].
  { change themeAssets with (themeDir ++ ["assets"]) in HA'.
    rewrite lookup_path_app in HA'.
    destruct (lookup_path themeDir w2); [eauto|done]. }
  assert (wf_node T) as HwT by (by eapply (wf_get themeDir (Dir (disk w2)))).
  assert (get themeDir (Dir d') = Some T) as HT'
    by (unfold d'; by rewrite get_modify_root_diverge).
  assert (assoc "theme.zip" d' = Some (File (Bytes ""))) as Hz'.
  { unfold d', themeZip. rewrite modify_root_cons. simpl.
    specialize (F themeZip eq_refl). unfold lookup_path, themeZip in F.
    rewrite !get_top in F. simpl in F. rewrite F.
    unfold themeZip in Hzip. rewrite get_top in Hzip.
    destruct (assoc "theme.zip" d) as [[c|es]|]; simpl;
      [by rewrite assoc_upsert_eq|by destruct (Hzip es)|by rewrite assoc_upsert_eq]. }
  exists (walk T ++ []). unfold lookup_path.
  rewrite (run_quiet d d' T Hstart HT'). split.
  - unfold themeZip. rewrite modify_root_cons, get_top. simpl. rewrite Hz'. simpl.
    by rewrite assoc_upsert_eq.
  - intros p. rewrite get_modify_root_diverge by done.
    rewrite get_app, HT'. simpl. rewrite app_nil_r.
    split; [intros c|]; rewrite (walk_spec T HwT); unfold holds; done.
Qed.

Lemma archive_members_witness :
  ∃ ms,
    lookup_path themeZip (run sample_disk quiet) = Some (File (Zip ms)) ∧
    ∀ p,
      (∀ c, (p, Some c) ∈ ms ↔
            p ≠ [] ∧
            lookup_path (themeDir ++ p) (run sample_disk quiet) = Some (File c)) ∧
      ((p, None) ∈ ms ↔
       p ≠ [] ∧
       ∃ es, lookup_path (themeDir ++ p) (run sample_disk quiet) = Some (Dir es)).
Proof.
  apply (archive_members sample_disk).
  - solve_wf.
  - vm_compute. reflexivity.
  - intros es. vm_compute. discriminate.
Defined.

(** C4, as stated, fails: next to the files, the archive has an entry for
    every directory of the staged tree. *)
Lemma archive_has_directory_entries :
  ¬ ∀ d ms,
      lookup_path themeZip (run d quiet) = Some (File (Zip ms)) →
      ∀ p o, (p, o) ∈ ms →
             ∃ c, o = Some c ∧
                  lookup_path (themeDir ++ p) (run d quiet) = Some (File c).
Proof.
  intros H.
  destruct (H sample_disk _ ltac:(vm_compute; reflexivity) ["layout"] None)
    as (c & Hc & _); [|done].
  apply list_elem_of_here.
Qed.

(** * Runs that succeed

    The statements above about a successful normalization or a successful
    run are not vacuous: with a template directory, a build output made of
    files, and no directory in the way of a staged asset, every step goes
    through. *)

Lemma copy_asset_succeeds w file c A :
  lookup_path themeAssets w = Some (Dir A) →
  lookup_path (distAssets ++ [file]) w = Some (File c) →
  (∀ es, assoc (target_name file) A ≠ Some (Dir es)) →
  ∃ w', copy_asset file w = (Val tt, w') ∧
        lookup_path themeAssets w' = Some (Dir (upsert (target_name file) (File c) A)) ∧
        frame off_theme w w'.
Proof.
  intros HA Hsrc Hfree. rewrite copy_asset_target. unfold copy.
  rewrite Hsrc, assets_not_prefix. unfold fs_op.
  set (dest := themeAssets ++ [target_name file]).
  destruct (modify_root_child "copy" themeAssets (target_name file)
              (copy_onto dest (File c)) (disk w) A HA) as [Hg He].
  fold dest in Hg, He. rewrite copy_onto_file in Hg, He by done.
  pose proof (frame_set_disk off_theme "copy" dest (copy_onto dest (File c)) w
                (off_theme_diverge ["assets"; target_name file])) as Hf.
  destruct (modify_root "copy" dest (copy_onto dest (File c)) (disk w)) as [d' e].
  simpl in *. subst e. eauto.
Qed.

Lemma for_of_copy_asset_succeeds L : ∀ w A,
  lookup_path themeAssets w = Some (Dir A) →
  (∀ f, f ∈ L → ∃ c, lookup_path (distAssets ++ [f]) w = Some (File c)) →
  (∀ t es, assoc t A ≠ Some (Dir es)) →
  ∃ w', for_of L copy_asset w = (Val tt, w').
Proof.
  induction L as [|x L IH]; intros w A HA Hsrc Hfree; simpl.
  - by eexists.
  - destruct (Hsrc x) as [c Hc]; [apply list_elem_of_here|].
    destruct (copy_asset_succeeds w x c A HA Hc (Hfree _)) as (w1 & H1 & HA1 & F1).
    unfold bind. rewrite H1. apply (IH w1 _ HA1).
    + intros f Hf. destruct (Hsrc f) as [c' Hc']; [by apply list_elem_of_further|].
      exists c'. rewrite <-Hc'. apply F1, off_theme_dist.
    + intros t es. rewrite assoc_upsert. case_decide; [done|apply Hfree].
Qed.

Lemma ensureDir_assets_succeeds w T :
  lookup_path themeDir w = Some (Dir T) →
  (∀ c, assoc "assets" T ≠ Some (File c)) →
  ∃ w' A,
    ensureDir themeAssets w = (Val tt, w') ∧
    lookup_path themeAssets w' = Some (Dir A) ∧
    A = default [] (assoc "assets" T ≫= λ n, match n with Dir A => Some A | _ => None end) ∧
    frame off_theme w w'.
Proof.
  intros HT Hfree. unfold ensureDir, fs_op.
  destruct (modify_root_child "mkdir" themeDir "assets"
              (ensureDir_at themeAssets) (disk w) T HT) as [Hg He].
  change (themeDir ++ ["assets"]) with themeAssets in Hg, He.
  pose proof (frame_set_disk off_theme "mkdir" themeAssets (ensureDir_at themeAssets) w
                (off_theme_diverge ["assets"])) as Hf.
  destruct (modify_root "mkdir" themeAssets (ensureDir_at themeAssets) (disk w))
    as [d' e].
  cbn [fst snd] in Hg, He, Hf. subst e.
  assert (get themeAssets (Dir d') = Some (Dir
    (default [] (assoc "assets" T ≫= λ n, match n with Dir A => Some A | _ => None end))))
    as HA.
  { change themeAssets with (themeDir ++ ["assets"]). rewrite get_app, Hg.
    destruct (assoc "assets" T) as [[c|A]|] eqn:E; simpl.
    - by destruct (Hfree c).
    - by rewrite assoc_upsert_eq.
    - by rewrite assoc_upsert_eq. }
  destruct (assoc "assets" T) as [[c|A]|] eqn:E; simpl in *;
    [by destruct (Hfree c)|eauto 10..].
Qed.

(** Normalization goes through when the build output holds files only and
    no directory stands in the staged assets. *)
Lemma normalize_succeeds w T B :
  lookup_path themeDir w = Some (Dir T) →
  (∀ c, assoc "assets" T ≠ Some (File c)) →
  (∀ A t es, assoc "assets" T = Some (Dir A) → assoc t A ≠ Some (Dir es)) →
  lookup_path distAssets w = Some (Dir B) →
  (∀ f n, assoc f B = Some n → ∃ c, n = File c) →
  ∃ w', normalize w = (Val tt, w').
Proof.
  intros HT Hfree Hflat HB Hfiles. unfold normalize, bind.
  destruct (ensureDir_assets_succeeds w T HT Hfree) as (w1 & A & -> & HA & -> & F1).
  unfold readdir. rewrite (F1 distAssets), HB by done.
  eapply for_of_copy_asset_succeeds; [done| |].
  - intros f Hf. apply names_assoc in Hf as [n Hn].
    destruct (Hfiles f n Hn) as [c ->]. exists c.
    rewrite (F1 (distAssets ++ [f])) by done. by rewrite (lookup_built w B).
  - intros t es. destruct (assoc "assets" T) as [[c|A]|] eqn:E; simpl; [|eauto|done].
    by destruct (Hfree c).
Qed.

(** The synchronous part goes through, and the script reaches its [await],
    for a well-formed tree with a template directory whose assets (if any)
    are files, a build output of files, and no file in the place of the
    staged directory. *)
Lemma start_succeeds d es B :
  wf_dir d →
  (∀ c, assoc "theme" d ≠ Some (File c)) →
  assoc "theme-src" d = Some (Dir es) →
  (∀ c, assoc "assets" es ≠ Some (File c)) →
  (∀ A t sub, assoc "assets" es = Some (Dir A) → assoc t A ≠ Some (Dir sub)) →
  get distAssets (Dir d) = Some (Dir B) →
  (∀ f n, assoc f B = Some n → ∃ c, n = File c) →
  proc (start (init d)) = Awaiting.
Proof.
  intros Hwf Hth Hsrc Hfree Hflat HB Hfiles.
  assert (stage (init d) =
          (Val tt, init (upsert "theme" (Dir es) (upsert "theme" (Dir []) d)))) as Hs.
  { pose proof (wf_assoc "theme-src" d Hwf) as Hw. rewrite Hsrc in Hw.
    destruct Hw as [Hnd _]. rewrite stage_init, Hsrc, copy_onto_empty by done.
    destruct (assoc "theme" d) as [[c|old]|] eqn:E; [by destruct (Hth c)|done..]. }
  destruct (normalize_succeeds (stage (init d)).2 es B) as [w2 Hn]; try done.
  - rewrite Hs. unfold lookup_path. simpl. by rewrite assoc_upsert_eq.
  - rewrite Hs. unfold lookup_path. simpl disk.
    rewrite !get_upsert_off by done. done.
  - rewrite Hs in Hn. simpl in Hn.
    unfold start, top_level, buildTheme, try_catch, buildTheme_try, bind.
    rewrite Hs, Hn. done.
Qed.

(** * Further properties of [buildTheme] *)

(** ** Staging *)

(** X1. Staging a well-formed tree leaves in [theme] the template tree and
    nothing else: every path below [theme] holds what the same path holds
    below [theme-src], so whatever an earlier run had staged is gone. *)
Theorem staging_copies_template d w1 p :
  wf_dir d →
  stage (init d) = (Val tt, w1) →
  lookup_path (themeDir ++ p) w1 = get (themeSrc ++ p) (Dir d).
Proof.
  intros Hwf Hs. destruct (stage_Val d w1 Hwf Hs) as (_ & es & Hsrc & Hth).
  by rewrite lookup_path_app, Hth, get_app, Hsrc.
Qed.

Lemma staging_copies_template_witness :
  lookup_path (themeDir ++ ["stale.txt"]) (stage (init sample_disk)).2 = None ∧
  lookup_path (themeDir ++ ["layout"; "theme.liquid"]) (stage (init sample_disk)).2 =
    Some (File (Bytes "<html>")).
Proof.
  split.
  - rewrite (staging_copies_template sample_disk _ ["stale.txt"]);
      [reflexivity|solve_wf|vm_compute; reflexivity].
  - rewrite (staging_copies_template sample_disk _ ["layout"; "theme.liquid"]);
      [reflexivity|solve_wf|vm_compute; reflexivity].
Defined.

(** ** Normalizing *)

Lemma frame_normalize_assets : preserves (frame off_assets) normalize.
Proof.
  apply normalize_preserves; [apply _| |].
  - by apply frame_fs_op.
  - intros. apply preserves_copy; [apply _|]. intros. apply frame_fs_op.
    intros q. apply diverge_app_l.
Qed.

(** X2. Normalization writes inside [theme/assets] only: however it ends,
    every path that is not [theme/assets], inside it or above it holds what
    it held; and when it succeeds, a staged asset whose name no built file
    is copied to is left as it was, with all it contains. *)
Theorem normalize_touches_assets_only w r w' :
  normalize w = (r, w') →
  (∀ q, off_assets q → lookup_path q w' = lookup_path q w) ∧
  (r = Val tt →
   ∀ t q, t ∉ target_name <$> names (built_assets w) →
          lookup_path (themeAssets ++ t :: q) w' =
          lookup_path (themeAssets ++ t :: q) w).
Proof.
  intros H. split; [by eapply frame_normalize_assets|].
  intros -> t q Ht.
  destruct (normalize_Val w w' H) as (B & A' & HB & HA' & _ & Hkeep & _).
  rewrite (built_assets_Some w B) in Ht by done.
  rewrite !lookup_path_app, HA'. simpl. rewrite (Hkeep t Ht).
  unfold staged_assets.
  apply bind_Val in H as ([] & w1 & He & _).
  apply ensureDir_Val in He as (A & _ & HA0).
  fold themeAssets in HA0.
  destruct (lookup_path themeAssets w) as [[c|A0]|]; simpl; done.
Qed.

Lemma normalize_touches_assets_only_witness :
  lookup_path ["theme"; "layout"; "theme.liquid"]
    (normalize (stage (init template_assets_disk)).2).2 =
  lookup_path ["theme"; "layout"; "theme.liquid"] (stage (init template_assets_disk)).2 ∧
  lookup_path (themeAssets ++ ["base.css.liquid"])
    (normalize (stage (init template_assets_disk)).2).2 =
  lookup_path (themeAssets ++ ["base.css.liquid"]) (stage (init template_assets_disk)).2.
Proof.
  destruct (normalize_touches_assets_only (stage (init template_assets_disk)).2
              (Val tt) (normalize (stage (init template_assets_disk)).2).2)
    as [Hf Hk]; [vm_compute; reflexivity|].
  split.
  - apply Hf. reflexivity.
  - apply (Hk eq_refl "base.css.liquid" []).
    change (target_name <$> names (built_assets (stage (init template_assets_disk)).2))
      with ["index.css"; "index.js"; "logo.png"].
    rewrite !elem_of_cons, elem_of_nil. intros [?|[?|[?|?]]]; discriminate || done.
Defined.

(** X3. The names the bundler gave to the stylesheet and the script do not
    reach the staged assets: after a successful normalization, a staged
    name ending in [.css] or [.js] is [index.css], [index.js], or a name
    the staged assets already had. *)
Theorem bundler_names_not_staged w w' f :
  normalize w = (Val tt, w') →
  is_css f ∨ is_js f →
  f ∈ names (staged_assets w') →
  f = "index.css" ∨ f = "index.js" ∨ f ∈ names (staged_assets w).
Proof.
  intros H Hext Hf.
  destruct (normalize_Val w w' H) as (B & A' & _ & HA' & Hn & _).
  rewrite (staged_assets_Some w' A') in Hf by done.
  destruct (proj1 (Hn f) Hf) as [?|Ht]; [by auto|].
  destruct (proj1 (elem_of_targets _ _) Ht) as [[? _]|[[? _]|[_ [Hc Hj]]]];
    [by auto..|].
  unfold is_css, is_js in Hext. destruct Hext; congruence.
Qed.

Lemma bundler_names_not_staged_witness :
  "bundle.a1b2.css" ∉ names (staged_assets (normalize (stage (init sample_disk)).2).2).
Proof.
  intros Hf.
  assert (normalize (stage (init sample_disk)).2 =
          (Val tt, (normalize (stage (init sample_disk)).2).2)) as H
    by (vm_compute; reflexivity).
  assert (is_css "bundle.a1b2.css" ∨ is_js "bundle.a1b2.css") as Hext
    by (left; reflexivity).
  destruct (bundler_names_not_staged _ _ _ H Hext Hf) as [?|[?|Hin]]; try done.
  vm_compute in Hin. by apply elem_of_nil in Hin.
Defined.

(** X4. An empty build output is not an error: normalization succeeds
    without copying anything, and the staged assets directory is what it
    was before (an empty directory if there was none), so no [index.css]
    and no [index.js] appear that the template did not bring. *)
Theorem normalize_empty_build w T :
  lookup_path themeDir w = Some (Dir T) →
  (∀ c, assoc "assets" T ≠ Some (File c)) →
  lookup_path distAssets w = Some (Dir []) →
  ∃ w', normalize w = (Val tt, w') ∧
        lookup_path themeAssets w' = Some (Dir (staged_assets w)) ∧
        console w' = console w.
Proof.
  intros HT Hfree HB. unfold normalize, bind.
  destruct (ensureDir_assets_succeeds w T HT Hfree) as (w1 & A & He & HA & HA0 & F1).
  rewrite He. unfold readdir. rewrite (F1 distAssets), HB by done. simpl.
  exists w1. split; [done|]. split.
  - rewrite HA. do 2 f_equal. rewrite HA0. unfold staged_assets.
    change themeAssets with (themeDir ++ ["assets"]).
    rewrite lookup_path_app, HT. simpl.
    by destruct (assoc "assets" T) as [[c|A0]|].
  - apply same_process_fs_op in He. by rewrite He.
Qed.

Lemma normalize_empty_build_witness :
  ∃ w', normalize (init [("theme", Dir []); ("dist", Dir [("assets", Dir [])])]) =
          (Val tt, w') ∧
        lookup_path themeAssets w' = Some (Dir []) ∧
        console w' = [].
Proof.
  apply (normalize_empty_build
           (init [("theme", Dir []); ("dist", Dir [("assets", Dir [])])]) []).
  - reflexivity.
  - done.
  - reflexivity.
Defined.

(** ** Failing runs *)

Lemma archive_setup_Val w : ∃ w', archive_setup w = (Val tt, w').
Proof. unfold archive_setup, bind. simpl. by eexists. Qed.

(** When the synchronous part does not complete, it stopped before the
    archive was set up, and only the staged directory may have changed. *)
Lemma try_failure_frame w r w' :
  buildTheme_try w = (r, w') → r ≠ Val tt → frame off_theme w w'.
Proof.
  unfold buildTheme_try, bind. intros H Hr.
  destruct (stage w) as [r1 w1] eqn:E1.
  assert (frame off_theme w w1) as F1 by (by eapply (frame_stage off_theme)).
  destruct r1 as [[]|e|c]; [|by simplify_eq..].
  destruct (normalize w1) as [r2 w2] eqn:E2.
  assert (frame off_theme w1 w2) as F2 by (by eapply (frame_normalize off_theme)).
  destruct r2 as [[]|e|c]; [|simplify_eq; by etransitivity..].
  destruct (archive_setup_Val w2) as [w3 H3]. rewrite H3 in H. by simplify_eq.
Qed.

(** X5. Whatever makes staging or normalization fail, the run ends with
    status 1 after exactly one line, on the error channel, and has touched
    nothing but the staged directory: the inputs and an archive left by an
    earlier run are as they were. *)
Theorem early_failure_keeps_archive d evs :
  proc (start (init d)) ≠ Awaiting →
  exit_code (run d evs) = Some 1%Z ∧
  (∃ msg e, console (run d evs) = [Err msg e]) ∧
  (∀ q, off_theme q → lookup_path q (run d evs) = get q (Dir d)).
Proof.
  intros Hp. destruct (buildTheme_try (init d)) as [r w'] eqn:Ht.
  assert (r ≠ Val tt) as Hr.
  { intros ->. apply Hp. unfold start, top_level, buildTheme, try_catch.
    by rewrite Ht. }
  pose proof (try_failure_frame _ _ _ Ht Hr) as F.
  destruct (start_failed d r w' Ht Hr) as [[_ H]|(e & _ & H)];
    rewrite (run_failed d evs _ _ H); (split; [done|]); (split; [by eexists _, _|]);
    intros q Hq; apply (F q Hq).
Qed.

Lemma early_failure_keeps_archive_witness :
  exit_code (run no_build_disk quiet) = Some 1%Z ∧
  (∃ msg e, console (run no_build_disk quiet) = [Err msg e]) ∧
  (∀ q, off_theme q →
        lookup_path q (run no_build_disk quiet) = get q (Dir no_build_disk)).
Proof.
  apply (early_failure_keeps_archive no_build_disk quiet).
  vm_compute. discriminate.
Defined.

Lemma err_line_step w ev :
  armed w →
  (∀ msg e, Err msg e ∈ console w → proc w = Exited 1) →
  ∀ msg e, Err msg e ∈ console (deliver w ev) → proc (deliver w ev) = Exited 1.
Proof.
  intros Hw Hc. destruct (alive w) eqn:Ha; [|by rewrite deliver_dead].
  rewrite deliver_armed by done. unfold alive in Ha.
  destruct ev as [[] [] [e|]|[e|]]; try done.
  1,2: intros msg e'; simpl; rewrite elem_of_app, list_elem_of_singleton;
    intros [Hin|?]; [|done];
    assert (Err msg e' ∈ console w) as Hin'
      by (revert Hin; unfold flush; by destruct (sink w), (produced w), (piped w));
    apply Hc in Hin'; rewrite Hin' in Ha; done.
  1,2: intros msg e' Hin; apply Hc in Hin; rewrite Hin in Ha; done.
  - destruct (proc w) eqn:Hp; try done;
      intros msg e' Hin; by apply Hc in Hin.
  - destruct (proc w) eqn:Hp; try done;
      intros msg e' Hin; by apply Hc in Hin.
Qed.

(** X6. The script never reports an error and carries on: in every run,
    whatever the runtime delivers, a line on the error channel means that
    the process has ended through [process.exit(1)]. *)
Theorem error_line_means_exit d evs msg e :
  Err msg e ∈ console (run d evs) → proc (run d evs) = Exited 1.
Proof.
  destruct (run_cases d evs) as [(l & Hl & _ & ->)|[Hs ->]].
  - intros _. by rewrite Hl.
  - revert msg e.
    apply (foldl_deliver_inv (λ w, armed w ∧
      ∀ msg e, Err msg e ∈ console w → proc w = Exited 1)).
    + intros w ev [Hw Hi]. split; [by apply armed_deliver|by apply err_line_step].
    + split; [done|]. simpl. by intros msg e ?%elem_of_nil.
Qed.

Lemma error_line_means_exit_witness :
  proc (run no_template_disk quiet) = Exited 1.
Proof.
  apply (error_line_means_exit no_template_disk quiet missing_message None).
  vm_compute. apply list_elem_of_here.
Defined.

Lemma armed_run d evs :
  proc (run d evs) = Awaiting ∨ proc (run d evs) = Returned → armed (run d evs).
Proof.
  intros Hp. destruct (run_cases d evs) as [(l & Hl & _ & Hr)|[Hs Hr]].
  - rewrite Hr, Hl in Hp. by destruct Hp.
  - rewrite Hr. apply (foldl_deliver_inv armed); [|done].
    intros. by apply armed_deliver.
Qed.

(** X7. An [error] event that arrives while the script is suspended at its
    [await], or after it has returned, never reaches the [catch] clause:
    the archive's listener rethrows it from the event loop and the output
    stream has no listener for it, so the process ends on an uncaught
    exception with status 1, and the script prints nothing and writes
    nothing more. *)
Theorem late_error_is_uncaught d evs src e :
  proc (run d evs) = Awaiting ∨ proc (run d evs) = Returned →
  proc (run d (evs ++ [Emitted src SigError (Some e)])) = Crashed e ∧
  exit_code (run d (evs ++ [Emitted src SigError (Some e)])) = Some 1%Z ∧
  console (run d (evs ++ [Emitted src SigError (Some e)])) = console (run d evs) ∧
  disk (run d (evs ++ [Emitted src SigError (Some e)])) = disk (run d evs).
Proof.
  intros Hp. pose proof (armed_run d evs Hp) as Hw.
  assert (run d (evs ++ [Emitted src SigError (Some e)]) =
          set_status (Crashed e) (run d evs)) as ->; [|done].
  unfold run at 1. rewrite foldl_app. fold (run d evs). simpl.
  rewrite deliver_armed; [by destruct src|done|].
  unfold alive. by destruct Hp as [-> | ->].
Qed.

Lemma late_error_is_uncaught_witness :
  proc (run sample_disk ([] ++ [Emitted Archive SigError (Some (MkError EIO "read" themeDir))])) =
    Crashed (MkError EIO "read" themeDir) ∧
  console (run sample_disk ([] ++ [Emitted Archive SigError (Some (MkError EIO "read" themeDir))])) =
    console (run sample_disk []).
Proof.
  destruct (late_error_is_uncaught sample_disk [] Archive (MkError EIO "read" themeDir))
    as (Hp & _ & Hc & _).
  - left. vm_compute. reflexivity.
  - split; [exact Hp|exact Hc].
Defined.

(** ** What earlier runs left behind *)

Lemma upsert_comm x z a b d :
  x ≠ z → x ∈ names d → upsert x a (upsert z b d) = upsert z b (upsert x a d).
Proof.
  intros Hxz. induction d as [|[y n] d IH]; simpl.
  - by intros ?%elem_of_nil.
  - intros Hin. destruct (decide (x = y)) as [->|Hxy].
    + rewrite (decide_False (P := z = y)) by done. simpl.
      by rewrite decide_True, (decide_False (P := z = y)).
    + apply elem_of_cons in Hin as [?|Hin]; [done|].
      destruct (decide (z = y)) as [->|Hzy]; simpl.
      * by rewrite (decide_False (P := x = y)), decide_True.
      * rewrite (decide_False (P := x = y)), (decide_False (P := z = y)) by done.
        by rewrite IH.
Qed.

Lemma lookup_with_zip v w q :
  off_zip q → lookup_path q (with_zip v w) = lookup_path q w.
Proof. intros Hq. unfold lookup_path, with_zip. simpl. by apply get_upsert_off. Qed.

Lemma ignores_zip_pure {A} (m : M A) (g : world → world) (r : res A) :
  (∀ w, m w = (r, g w)) →
  (∀ w, disk (g w) = disk w) →
  (∀ w v, g (with_zip v w) = with_zip v (g w)) →
  ignores_zip m.
Proof.
  intros Hm Hd Hg w v r' w' Hth H. rewrite Hm in H. simplify_eq.
  rewrite Hm, Hg, Hd. done.
Qed.

Lemma ignores_zip_ret {A} (a : A) : ignores_zip (ret a).
Proof. by apply (ignores_zip_pure _ id (Val a)). Qed.

Lemma ignores_zip_console_error msg e : ignores_zip (console_error msg e).
Proof. by apply (ignores_zip_pure _ (add_line (Err msg e)) (Val tt)). Qed.

Lemma ignores_zip_exit {A} c : ignores_zip (@process_exit A c).
Proof. by apply (ignores_zip_pure _ id (Exit c)). Qed.

Lemma ignores_zip_bind {A B} (m : M A) (k : A → M B) :
  ignores_zip m → (∀ a, ignores_zip (k a)) → ignores_zip (bind m k).
Proof.
  intros Hm Hk w v r w' Hth H. unfold bind in *.
  destruct (m w) as [r1 w1] eqn:E1.
  destruct (Hm w v r1 w1 Hth E1) as [-> Hth1].
  destruct r1 as [a|e|c]; simplify_eq; [|done..]. by apply Hk.
Qed.

Lemma ignores_zip_for_of {A} (xs : list A) (body : A → M unit) :
  (∀ x, ignores_zip (body x)) → ignores_zip (for_of xs body).
Proof.
  intros Hb. induction xs as [|x xs IH]; simpl.
  - apply ignores_zip_ret.
  - apply ignores_zip_bind; auto.
Qed.

Lemma ignores_zip_fs_op call p f : ignores_zip (fs_op call ("theme" :: p) f).
Proof.
  intros w v r w' Hth H. unfold fs_op in *. rewrite modify_root_cons in *.
  simpl disk. rewrite assoc_upsert_ne by done.
  destruct (modify call ("theme" :: p) p f (assoc "theme" (disk w))) as [ρ e].
  simpl in *.
  assert (set_opt "theme" ρ (upsert "theme.zip" v (disk w)) =
          upsert "theme.zip" v (set_opt "theme" ρ (disk w))) as ->.
  { destruct ρ as [a|]; simpl; [|done]. by apply upsert_comm. }
  assert ("theme" ∈ names (set_opt "theme" ρ (disk w))) as Hth'.
  { destruct ρ as [a|]; simpl; [|done]. apply elem_of_names_upsert. by left. }
  destruct e; simplify_eq; done.
Qed.

Lemma ignores_zip_existsSync p : off_zip p → ignores_zip (existsSync p).
Proof.
  intros Hp w v r w' Hth [= <- <-]. unfold existsSync.
  by rewrite lookup_with_zip.
Qed.

Lemma ignores_zip_readdir p : off_zip p → ignores_zip (readdir p).
Proof.
  intros Hp w v r w' Hth H. unfold readdir in *. rewrite lookup_with_zip by done.
  destruct (lookup_path p w) as [[c|es]|]; by simplify_eq.
Qed.

Lemma ignores_zip_copy src p :
  off_zip src → ignores_zip (copy src ("theme" :: p)).
Proof.
  intros Hsrc w v r w' Hth H. unfold copy in *. rewrite lookup_with_zip by done.
  destruct (lookup_path src w) as [n|]; [|by simplify_eq].
  case_bool_decide; [by simplify_eq|]. by apply ignores_zip_fs_op.
Qed.

Lemma ignores_zip_stage : ignores_zip stage.
Proof.
  unfold stage.
  apply ignores_zip_bind; [apply ignores_zip_fs_op|intros _].
  apply ignores_zip_bind; [by apply ignores_zip_existsSync|intros found].
  apply ignores_zip_bind; [|intros _; by apply ignores_zip_copy].
  destruct (negb found); [|apply ignores_zip_ret].
  apply ignores_zip_bind; [apply ignores_zip_console_error|].
  intros _. apply ignores_zip_exit.
Qed.

Lemma ignores_zip_normalize : ignores_zip normalize.
Proof.
  unfold normalize.
  apply ignores_zip_bind; [apply ignores_zip_fs_op|intros _].
  apply ignores_zip_bind; [by apply ignores_zip_readdir|intros files].
  apply ignores_zip_for_of. intros file. rewrite copy_asset_target.
  by apply ignores_zip_copy.
Qed.

(** Setting up the archive truncates whatever file stood at [theme.zip]. *)
Lemma archive_setup_with_zip v w :
  (∀ es, v ≠ Dir es) →
  (∀ es, assoc "theme.zip" (disk w) ≠ Some (Dir es)) →
  archive_setup (with_zip v w) = archive_setup w.
Proof.
  intros Hv Hz. unfold archive_setup, bind. simpl.
  unfold archive_finalize, ret. do 2 f_equal.
  unfold createWriteStream, themeZip. rewrite !modify_root_cons. simpl.
  rewrite assoc_upsert_eq.
  assert ((truncate_at ["theme.zip"] (Some v)).1 = Some (File (Bytes ""))) as ->
    by (destruct v as [c|es]; [done|by destruct (Hv es)]).
  assert ((truncate_at ["theme.zip"] (assoc "theme.zip" (disk w))).1 =
          Some (File (Bytes ""))) as ->.
  { destruct (assoc "theme.zip" (disk w)) as [[c|es]|] eqn:E; try done.
    by destruct (Hz es). }
  simpl. by rewrite upsert_upsert.
Qed.

(** The staging block does not see what the staged directory held. *)
Lemma stage_old_theme d old :
  (∀ c, assoc "theme" d ≠ Some (File c)) →
  stage (init (upsert "theme" (Dir old) d)) = stage (init d).
Proof.
  intros Hth. rewrite !stage_init.
  rewrite assoc_upsert_eq, assoc_upsert_ne, upsert_upsert by done.
  destruct (assoc "theme" d) as [[c|es]|]; [by destruct (Hth c)|done..].
Qed.

(** When the synchronous part goes through, it reaches the same state
    whatever directory an earlier run left at [theme] and whatever file it
    left at [theme.zip]. *)
Lemma start_old_outputs d old v :
  (∀ es, v ≠ Dir es) →
  (∀ es, assoc "theme.zip" d ≠ Some (Dir es)) →
  (∀ c, assoc "theme" d ≠ Some (File c)) →
  proc (start (init d)) = Awaiting →
  start (init (upsert "theme.zip" v (upsert "theme" (Dir old) d))) = start (init d).
Proof.
  intros Hv Hz Hth Hp.
  destruct (start_Awaiting d Hp) as (w1 & w2 & Hs & Hn & Hw2 & _).
  assert (frame off_theme (init d) w2) as F.
  { transitivity w1; [by eapply (frame_stage off_theme)|].
    by eapply (frame_normalize off_theme). }
  assert (∀ es, assoc "theme.zip" (disk w2) ≠ Some (Dir es)) as Hz2.
  { intros es. specialize (F themeZip eq_refl). unfold lookup_path, themeZip in F.
    rewrite !get_top in F. simpl in F. rewrite F. apply Hz. }
  rewrite <-(stage_old_theme d old Hth) in Hs.
  assert ("theme" ∈ names (disk (init (upsert "theme" (Dir old) d)))) as Hin
    by (simpl; apply elem_of_names_upsert; by left).
  destruct (ignores_zip_stage _ v _ _ Hin Hs) as [Hs' Hin1].
  destruct (ignores_zip_normalize _ v _ _ Hin1 Hn) as [Hn' _].
  unfold start, top_level, buildTheme, try_catch, buildTheme_try, bind.
  change (init (upsert "theme.zip" v (upsert "theme" (Dir old) d)))
    with (with_zip v (init (upsert "theme" (Dir old) d))).
  rewrite Hs', Hn', (archive_setup_with_zip v w2 Hv Hz2).
  rewrite (stage_old_theme d old Hth) in Hs. by rewrite Hs, Hn.
Qed.

(** X8. A run whose synchronous part goes through does not depend on what
    earlier runs left behind: with any directory at [theme] and any file at
    [theme.zip], it prints the same, ends the same and leaves the same
    tree, staged directory and archive included. *)
Theorem run_ignores_old_outputs d old v evs :
  (∀ es, v ≠ Dir es) →
  (∀ es, assoc "theme.zip" d ≠ Some (Dir es)) →
  (∀ c, assoc "theme" d ≠ Some (File c)) →
  proc (start (init d)) = Awaiting →
  run (upsert "theme.zip" v (upsert "theme" (Dir old) d)) evs = run d evs.
Proof.
  intros Hv Hz Hth Hp. unfold run. by rewrite start_old_outputs.
Qed.

Lemma run_ignores_old_outputs_witness :
  run (upsert "theme.zip" (File (Bytes "old archive"))
         (upsert "theme" (Dir [("left.over", File (Bytes "x"))]) sample_disk)) quiet =
  run sample_disk quiet.
Proof.
  apply run_ignores_old_outputs.
  - done.
  - done.
  - intros c. vm_compute. discriminate.
  - vm_compute. reflexivity.
Defined.

Global Instance keeps_around_preorder : PreOrder keeps_around.
Proof. split; unfold keeps_around; [intros w; auto | intros w1 w2 w3; auto]. Qed.

Lemma keeps_around_fs_op call p f : preserves keeps_around (fs_op call ("theme" :: p) f).
Proof.
  intros w r w' H d0 [X HX]. unfold fs_op in H. rewrite modify_root_cons in H.
  destruct (modify call ("theme" :: p) p f (assoc "theme" (disk w))) as [ρ e].
  simpl in H.
  assert (disk w' = set_opt "theme" ρ (disk w)) as Hd by (by destruct e; simplify_eq).
  unfold around_theme. rewrite Hd, HX. destruct ρ as [a|]; simpl; [|by exists X].
  exists a. apply upsert_upsert.
Qed.

Lemma keeps_around_normalize : preserves keeps_around normalize.
Proof.
  apply normalize_preserves; [apply _|apply keeps_around_fs_op|].
  intros. apply preserves_copy; [apply _|]. intros. apply keeps_around_fs_op.
Qed.

(** The tree a successful run leaves: the tree it started from, with the
    staged directory at [theme] and the archive of it at [theme.zip]. *)
Lemma disk_after_quiet d :
  proc (start (init d)) = Awaiting →
  (∀ es, assoc "theme.zip" d ≠ Some (Dir es)) →
  (∀ c, assoc "theme" d ≠ Some (File c)) ∧
  ∃ T, disk (run d quiet) =
         upsert "theme.zip" (File (Zip (walk (Dir T) ++ [])))
           (upsert "theme" (Dir T) d).
Proof.
  intros Hp Hz.
  destruct (start_Awaiting d Hp) as (w1 & w2 & Hs & Hn & Hw2 & Hstart).
  assert (∀ c, assoc "theme" d ≠ Some (File c)) as Hth.
  { intros c Hc. rewrite stage_init, Hc in Hs. done. }
  split; [done|].
  assert (around_theme d w1) as H1.
  { rewrite stage_init in Hs.
    destruct (assoc "theme" d) as [[c|es]|]; [by destruct (Hth c)| |].
    all: destruct (assoc "theme-src" d) as [n|]; [|done].
    all: destruct (copy_onto_dir themeDir n []) as [ds Hds].
    all: rewrite Hds in Hs; simplify_eq; exists (Dir ds); simpl;
      apply upsert_upsert. }
  destruct (keeps_around_normalize _ _ _ Hn d H1) as [X HX].
  destruct (normalize_Val _ _ Hn) as (B & A' & _ & HA' & _).
  assert (∃ T, X = Dir T) as [T ->].
  { unfold lookup_path in HA'. rewrite HX in HA'. simpl in HA'.
    rewrite assoc_upsert_eq in HA'. simpl in HA'.
    destruct X as [c|T]; [done|eauto]. }
  exists T.
  assert (frame off_theme (init d) w2) as F.
  { transitivity w1; [by eapply (frame_stage off_theme)|].
    by eapply (frame_normalize off_theme). }
  assert ((modify_root "open" themeZip (truncate_at themeZip) (disk w2)).1 =
          upsert "theme.zip" (File (Bytes "")) (disk w2)) as Hd'.
  { unfold themeZip. rewrite modify_root_cons. simpl.
    specialize (F themeZip eq_refl). unfold lookup_path, themeZip in F.
    rewrite !get_top in F. simpl in F. rewrite F.
    destruct (assoc "theme.zip" d) as [[c|es]|] eqn:E; [done|by destruct (Hz es)|done]. }
  rewrite Hd' in Hstart.
  rewrite (run_quiet d _ (Dir T) Hstart).
  - unfold themeZip. rewrite modify_root_cons. simpl. rewrite assoc_upsert_eq.
    simpl. by rewrite upsert_upsert, HX.
  - unfold themeDir. rewrite get_top, assoc_upsert_ne, HX by done.
    apply assoc_upsert_eq.
Qed.

(** X9. Building twice is building once: run again on the tree a
    successful run has left, the script prints the same, ends the same and
    leaves the same tree, with the same staged directory and the same
    archive. *)
Theorem build_twice d evs :
  proc (start (init d)) = Awaiting →
  (∀ es, assoc "theme.zip" d ≠ Some (Dir es)) →
  run (disk (run d quiet)) evs = run d evs.
Proof.
  intros Hp Hz. destruct (disk_after_quiet d Hp Hz) as [Hth [T ->]].
  unfold run. by rewrite start_old_outputs.
Qed.

Lemma build_twice_witness :
  run (disk (run sample_disk quiet)) quiet = run sample_disk quiet.
Proof.
  apply build_twice.
  - vm_compute. reflexivity.
  - intros es. vm_compute. discriminate.
Defined.

(** ** Inputs of the wrong kind *)

(** X10. A template path that exists but is a file, not a directory, gets
    past the guard and fails in the copy: the [catch] clause prints the
    error, the run ends with status 1, the staged directory is left empty
    and nothing else is touched. *)
Theorem template_not_a_directory d c evs :
  assoc "theme-src" d = Some (File c) →
  (∀ c', assoc "theme" d ≠ Some (File c')) →
  exit_code (run d evs) = Some 1%Z ∧
  (∃ e, console (run d evs) = [Err failure_message (Some e)]) ∧
  lookup_path themeDir (run d evs) = Some (Dir []) ∧
  (∀ q, off_theme q → lookup_path q (run d evs) = get q (Dir d)).
Proof.
  intros Hsrc Hth.
  assert (∃ e, start (init d) =
    failed (upsert "theme" (Dir []) d) (Err failure_message (Some e))) as [e Hs].
  { unfold start, top_level, buildTheme, try_catch, buildTheme_try, bind.
    rewrite stage_init, Hsrc. simpl. rewrite upsert_upsert.
    destruct (assoc "theme" d) as [[c'|es]|]; [by destruct (Hth c')|by eexists..]. }
  rewrite (run_failed d evs _ _ Hs). split; [done|]. split; [by exists e|]. split.
  - unfold lookup_path. simpl. by rewrite assoc_upsert_eq.
  - intros q Hq. by apply get_upsert_off.
Qed.

Lemma template_not_a_directory_witness :
  exit_code (run [("theme-src", File (Bytes "oops"))] quiet) = Some 1%Z ∧
  lookup_path themeDir (run [("theme-src", File (Bytes "oops"))] quiet) = Some (Dir []).
Proof.
  destruct (template_not_a_directory [("theme-src", File (Bytes "oops"))]
              (Bytes "oops") quiet) as (Hc & _ & Ht & _); [done..|].
  split; [exact Hc|exact Ht].
Defined.
